(** * Shell completion of click: a shallow embedding

    The development follows [src/click/_bashcomplete.py] and
    [src/click/shell_completion.py].  Python strings are [string], held
    as their UTF-8 bytes, lists are [list], the dictionaries
    [Context.params] and [available_shells] are [gmap string _], and code
    that can raise returns a [result]. *)

From Stdlib Require Import ZArith String Ascii.
From stdpp Require Import base option list gmap strings sorting pretty.

Set Warnings "-register-all,-clear-no-such-hyp".


(** ** Exceptions and fallible computations *)

Inductive exn : Type :=
| KeyError (key : string)
| AttributeError (attr : string)
| ValueError
| NotImplementedError (msg : string)
| Exception (msg : string).

Inductive result (A : Type) : Type :=
| Ok (a : A)
| Raise (e : exn).
Arguments Ok {A} a.
Arguments Raise {A} e.

#[global] Instance result_ret : MRet result := λ A a, Ok a.
#[global] Instance result_bind : MBind result := λ A B f m,
  match m with
  | Ok a => f a
  | Raise e => Raise e
  end.
#[global] Instance result_fmap : FMap result := λ A B f m,
  match m with
  | Ok a => Ok (f a)
  | Raise e => Raise e
  end.

(** ** Python string primitives *)

Definition WORDBREAK : string := "=".

(** [sub in s] for strings. *)
Fixpoint str_in (sub s : string) : bool :=
  String.prefix sub s ||
  match s with
  | EmptyString => false
  | String _ s' => str_in sub s'
  end.

(** [s[n:]]. *)
Fixpoint string_drop (n : nat) (s : string) : string :=
  match n, s with
  | S n', String _ s' => string_drop n' s'
  | _, _ => s
  end.

(** [s.partition(sep)]: split at the first occurrence of [sep]; when
    [sep] does not occur the result is [(s, "", "")]. *)
Fixpoint partition (s sep : string) : string * string * string :=
  if String.prefix sep s then ("", sep, string_drop (String.length sep) s)
  else
    match s with
    | EmptyString => ("", "", "")
    | String c s' =>
        let '(before, found, after) := partition s' sep in
        (String c before, found, after)
    end.

(** [s.split(sep, 1)]: at most one split, at the first occurrence. *)
Definition split_once (s sep : string) : list string :=
  if str_in sep s then
    let '(before, _, after) := partition s sep in [before; after]
  else [s].

(** [s.startswith(p)]. *)
Definition startswith (s p : string) : bool := String.prefix p s.

(** ** Values *)

(** Values that are offered as completions or listed as choices. *)
Inductive value : Type :=
| VStr (s : string)
| VInt (z : Z).

(** [str(v)]. *)
Definition py_str (v : value) : string :=
  match v with
  | VStr s => s
  | VInt z => pretty z
  end.

(** Parsed parameter values, as stored in [Context.params]. *)
Inductive pyval : Type :=
| PyNone
| PyScalar (v : value)
| PyTuple (items : list value).

(** [isinstance(v, abc.Iterable)]: strings and tuples are iterable. *)
Definition is_iterable (v : pyval) : bool :=
  match v with
  | PyScalar (VStr _) | PyTuple _ => true
  | _ => false
  end.

(** The number of characters of a string, which is held as its UTF-8
    bytes: the bytes [10xxxxxx] continue a character and are not counted. *)
Definition continues_character (c : ascii) : bool :=
  match c with
  | Ascii _ _ _ _ _ _ b6 b7 => b7 && negb b6
  end.

Fixpoint code_points (s : string) : nat :=
  match s with
  | EmptyString => 0
  | String c s' =>
      if continues_character c then code_points s' else S (code_points s')
  end.

(** [len(v)] for the iterable values. *)
Definition py_len (v : pyval) : Z :=
  match v with
  | PyScalar (VStr s) => Z.of_nat (code_points s)
  | PyTuple items => Z.of_nat (length items)
  | _ => 0
  end.

(** A candidate is a (display value, optional description) pair. *)
Definition candidate : Type := value * option string.

(** What a dynamic callback yields: a bare value or a tuple. *)
Inductive completion_item : Type :=
| Bare (v : value)
| Tuple (v : value) (descr : option string).

(** ** The command tree (read through the interface of [click.core]) *)

Inductive ParamType : Type :=
| Choice (choices : list value)
| OtherType.

(** Dynamic callbacks are named; the section variable [autocompletion_call]
    below runs them. *)
Definition callback : Type := string.

(** Attributes of every parameter ([click.core.Parameter]). *)
Record ParameterAttrs : Type := {
  name : string;
  opts : list string;
  secondary_opts : list string;
  nargs : Z;
  type : ParamType;
  autocompletion : option callback;
}.

(** Attributes that only an [Option] has. *)
Record OptionAttrs : Type := {
  is_flag : bool;
  multiple : bool;
  hidden : bool;
  help : option string;
}.

Inductive Param : Type :=
| Option (p : ParameterAttrs) (o : OptionAttrs)
| Argument (p : ParameterAttrs)
| OtherParameter (p : ParameterAttrs).

Definition attrs (cmd_param : Param) : ParameterAttrs :=
  match cmd_param with
  | Option p _ | Argument p | OtherParameter p => p
  end.

(** The capability of a [MultiCommand]. *)
Record MultiCommand (C : Type) : Type := {
  chain : bool;
  list_commands : list string;
  get_command : string → option C;
}.
Arguments chain {C} _.
Arguments list_commands {C} _.
Arguments get_command {C} _ _.

Inductive Command : Type := Build_Command {
  cmd_name : string;
  cmd_hidden : bool;
  get_short_help_str : string;
  get_params : list Param;
  multi : option (MultiCommand Command);
}.

Inductive Ctx : Type := Build_Ctx {
  command : Command;
  parent : option Ctx;
  params : gmap string pyval;
  protected_args : list string;
  ctx_args : list string;
}.

(** [isinstance(ctx.command, MultiCommand) and ctx.command.chain]. *)
Definition is_chained (cmd : Command) : bool :=
  match multi cmd with
  | Some m => chain m
  | None => false
  end.

(** ** Classifier primitives *)

Definition start_of_option (param_str : string) : bool :=
  negb (String.eqb param_str "") && String.eqb (String.substring 0 1 param_str) "-".

(** The loop of [is_incomplete_option] over the enumerated, reversed
    arguments; [last_option] is the loop's variable. *)
Fixpoint scan_last_option (nargs : Z) (index : Z) (rargs : list string)
    (last_option : option string) : option string :=
  match rargs with
  | [] => last_option
  | arg_str :: rargs' =>
      if bool_decide (index + 1 > nargs)%Z then last_option
      else scan_last_option nargs (index + 1) rargs'
             (if start_of_option arg_str then Some arg_str else last_option)
  end.

Definition is_incomplete_option (all_args : list string)
    (cmd_param : Param) : bool :=
  match cmd_param with
  | Option p o =>
      if is_flag o then false
      else
        let last_option :=
          scan_last_option (nargs p) 0
            (reverse (filter (λ arg, arg ≠ WORDBREAK) all_args)) None in
        match last_option with
        | Some l => negb (String.eqb l "") && bool_decide (l ∈ opts p)
        | None => false
        end
  | _ => false
  end.

Definition is_incomplete_argument (current_params : gmap string pyval)
    (cmd_param : Param) : result bool :=
  match cmd_param with
  | Argument p =>
      match current_params !! name p with
      | None => Raise (KeyError (name p))
      | Some current_param_values =>
          match current_param_values with
          | PyNone => Ok true
          | _ =>
              if bool_decide (nargs p = -1)%Z then Ok true
              else if is_iterable current_param_values
                      && bool_decide (nargs p > 1)%Z
                      && bool_decide (py_len current_param_values < nargs p)%Z
              then Ok true
              else Ok false
          end
      end
  | _ => Ok false
  end.

(** ** Windows of the token stream, in the order the tokens were typed *)

(** The last [n] tokens of [l]. *)
Definition last_tokens {A} (n : nat) (l : list A) : list A :=
  drop (length l - n) l.

(** The tokens among the last [n] (word-break tokens apart) that start
    an option. *)
Definition flags_in_window (n : Z) (all_args : list string) : list string :=
  filter (λ t, start_of_option t)
    (last_tokens (Z.to_nat n) (filter (λ arg, arg ≠ WORDBREAK) all_args)).

(** ** Ordering of (name, short help) tuples and [sorted] *)

(** Python compares strings by code point, which on UTF-8 bytes is the
    order of the bytes ([String.le]), and tuples lexicographically. *)
Definition tuple_le (x y : string * string) : Prop :=
  String.le x.1 y.1 ∧ (x.1 = y.1 → String.le x.2 y.2).

#[global] Instance tuple_le_dec x y : Decision (tuple_le x y).
Proof. unfold tuple_le. apply _. Defined.

(** [sorted(l)] on such tuples.  The order is total and antisymmetric, so
    the sorted arrangement of a list is unique ([sorted_unique] below) and
    the sorting algorithm does not matter. *)
Definition sorted (l : list (string * string)) : list (string * string) :=
  merge_sort tuple_le l.

(** ** The completion engine *)

Section Engine.

(** Runs the dynamic callback of a parameter:
    [cmd_param.autocompletion(ctx=ctx, args=args, incomplete=incomplete)]. *)
Variable autocompletion_call :
  callback → Ctx → list string → string → result (list completion_item).

(** The parser of [click.core]:
    [cmd.make_context(info_name, args, parent=parent, resilient_parsing=True)];
    the flag is set for the children of a chained command, which are parsed
    with [allow_extra_args=True, allow_interspersed_args=False]. *)
Variable make_context :
  Command → string → list string → option Ctx → bool → Ctx.

(** [ctx.command.resolve_command(ctx, args)], giving
    [(cmd_name, cmd, args)]. *)
Variable resolve_command :
  Command → Ctx → list string → string * option Command * list string.

(** *** resolve_ctx *)

Inductive chain_walk : Type :=
| Returned (ctx : Ctx)
| Walked (sub_ctx : Ctx).

(** The inner loop over the children of a chained command; it is entered
    with [args] non-empty. *)
Fixpoint walk_chain (fuel : nat) (ctx : Ctx) (args : list string)
    : option chain_walk :=
  match fuel with
  | O => None
  | S fuel' =>
      let '(cmd_name, cmd, args) := resolve_command (command ctx) ctx args in
      match cmd with
      | None => Some (Returned ctx)
      | Some cmd =>
          let sub_ctx := make_context cmd cmd_name args (Some ctx) true in
          let args := ctx_args sub_ctx in
          match args with
          | [] => Some (Walked sub_ctx)
          | _ => walk_chain fuel' ctx args
          end
      end
  end.

Fixpoint resolve_loop (fuel : nat) (ctx : Ctx) (args : list string)
    : option Ctx :=
  match fuel with
  | O => None
  | S fuel' =>
      match args with
      | [] => Some ctx
      | _ =>
          match multi (command ctx) with
          | Some m =>
              if negb (chain m) then
                let '(cmd_name, cmd, args) :=
                  resolve_command (command ctx) ctx args in
                match cmd with
                | None => Some ctx
                | Some cmd =>
                    let ctx := make_context cmd cmd_name args (Some ctx) false in
                    resolve_loop fuel' ctx (protected_args ctx ++ ctx_args ctx)
                end
              else
                match walk_chain fuel' ctx args with
                | None => None
                | Some (Returned ctx) => Some ctx
                | Some (Walked sub_ctx) =>
                    resolve_loop fuel' sub_ctx
                      (protected_args sub_ctx ++ ctx_args sub_ctx)
                end
          | None => Some ctx
          end
      end
  end.

(** [resolve_ctx(cli, prog_name, args)].  The two loops run on what the
    parser returns, so they take fuel; the result is [None] only when the
    fuel runs out. *)
Definition resolve_ctx (fuel : nat) (cli : Command) (prog_name : string)
    (args : list string) : option Ctx :=
  let ctx := make_context cli prog_name args None false in
  resolve_loop fuel ctx (protected_args ctx ++ ctx_args ctx).

(** *** Value candidates *)

Definition get_user_autocompletions (ctx : Ctx) (args : list string)
    (incomplete : string) (cmd_param : Param) : result (list candidate) :=
  match type (attrs cmd_param) with
  | Choice choices =>
      Ok ((λ c, (c, None) : candidate) <$>
            filter (λ c, startswith (py_str c) incomplete) choices)
  | OtherType =>
      match autocompletion (attrs cmd_param) with
      | Some f =>
          dynamic_completions ← autocompletion_call f ctx args incomplete;
          Ok ((λ c, match c with
                    | Tuple v descr => (v, descr)
                    | Bare v => (v, None)
                    end : candidate) <$>
                (dynamic_completions : list completion_item))
      | None => Ok []
      end
  end.

(** *** Subcommand candidates *)

Fixpoint visible_commands (m : MultiCommand Command) (names : list string)
    (starts_with : string) : result (list Command) :=
  match names with
  | [] => Ok []
  | c :: names' =>
      if startswith c starts_with then
        match get_command m c with
        | None => Raise (AttributeError "hidden")
        | Some command =>
            rest ← visible_commands m names' starts_with;
            Ok (if negb (cmd_hidden command) then command :: rest else rest)
        end
      else visible_commands m names' starts_with
  end.

Definition get_visible_commands_starting_with (ctx : Ctx)
    (starts_with : string) : result (list Command) :=
  match multi (command ctx) with
  | Some m => visible_commands m (list_commands m) starts_with
  | None => Raise (AttributeError "list_commands")
  end.

(** The loop of [add_subcommand_completions] that walks up the parents. *)
Fixpoint add_chained_completions (ctx : Ctx) (incomplete : string)
    (completions_out : list (string * string))
    : result (list (string * string)) :=
  match ctx with
  | Build_Ctx _ None _ _ _ => Ok completions_out
  | Build_Ctx _ (Some ctx) _ _ _ =>
      if is_chained (command ctx) then
        cs ← get_visible_commands_starting_with ctx incomplete;
        let remaining_commands :=
          filter (λ c, cmd_name c ∉ protected_args ctx) (cs : list Command) in
        add_chained_completions ctx incomplete
          (completions_out ++
             ((λ c, (cmd_name c, get_short_help_str c)) <$> remaining_commands))
      else add_chained_completions ctx incomplete completions_out
  end.

Definition add_subcommand_completions (ctx : Ctx) (incomplete : string)
    (completions_out : list (string * string))
    : result (list (string * string)) :=
  completions_out ←
    match multi (command ctx) with
    | Some _ =>
        cs ← get_visible_commands_starting_with ctx incomplete;
        Ok (completions_out ++
              ((λ c, (cmd_name c, get_short_help_str c)) <$>
                 (cs : list Command)))
    | None => Ok completions_out
    end;
  add_chained_completions ctx incomplete completions_out.

(** *** Classification *)

(** The [=] normalisation at the head of [get_choices] and of
    [resolve_partial_value]; gives the new [(all_args, incomplete)]. *)
Definition split_incomplete (all_args : list string) (incomplete : string)
    : list string * string :=
  if start_of_option incomplete && str_in WORDBREAK incomplete then
    let partition_incomplete := partition incomplete WORDBREAK in
    (all_args ++ [partition_incomplete.1.1], partition_incomplete.2)
  else if String.eqb incomplete WORDBREAK then (all_args, "")
  else (all_args, incomplete).

(** The loop "completions for partial options". *)
Fixpoint complete_option_names (get_params : list Param)
    (all_args : list string) (incomplete : string)
    (completions : list candidate) : list candidate :=
  match get_params with
  | [] => completions
  | Option p o :: get_params' =>
      if negb (hidden o) then
        let param_opts :=
          filter (λ param_opt, param_opt ∉ all_args ∨ multiple o)
            (opts p ++ secondary_opts p) in
        complete_option_names get_params' all_args incomplete
          (completions ++
             ((λ o', (VStr o', help o) : candidate) <$>
                filter (λ o', startswith o' incomplete) param_opts))
      else complete_option_names get_params' all_args incomplete completions
  | _ :: get_params' =>
      complete_option_names get_params' all_args incomplete completions
  end.

(** [for param in get_params: if is_incomplete_option(all_args, param): return ...] *)
Fixpoint first_incomplete_option (all_args : list string)
    (get_params : list Param) : option Param :=
  match get_params with
  | [] => None
  | param :: get_params' =>
      if is_incomplete_option all_args param then Some param
      else first_incomplete_option all_args get_params'
  end.

(** [for param in get_params: if is_incomplete_argument(ctx.params, param): return ...] *)
Fixpoint first_incomplete_argument (current_params : gmap string pyval)
    (get_params : list Param) : result (option Param) :=
  match get_params with
  | [] => Ok None
  | param :: get_params' =>
      b ← is_incomplete_argument current_params param;
      if b : bool then Ok (Some param)
      else first_incomplete_argument current_params get_params'
  end.

(** [get_choices] from the statement [completions = []] on, with the values
    that [has_double_dash], [all_args] and [incomplete] have there. *)
Definition choices_for (ctx : Ctx) (has_double_dash : bool)
    (all_args : list string) (incomplete : string) : result (list candidate) :=
  if negb has_double_dash && start_of_option incomplete then
    Ok (complete_option_names (get_params (command ctx)) all_args incomplete [])
  else
    match first_incomplete_option all_args (get_params (command ctx)) with
    | Some param => get_user_autocompletions ctx all_args incomplete param
    | None =>
        found ← first_incomplete_argument (params ctx) (get_params (command ctx));
        match found with
        | Some param => get_user_autocompletions ctx all_args incomplete param
        | None =>
            completions ← add_subcommand_completions ctx incomplete [];
            Ok ((λ c, (VStr c.1, Some c.2) : candidate) <$> sorted completions)
        end
    end.

(** [get_choices] from the resolved context on. *)
Definition get_choices_from (ctx : Ctx) (args : list string)
    (incomplete : string) : result (list candidate) :=
  let all_args := args in
  let has_double_dash := bool_decide ("--" ∈ all_args) in
  let '(all_args, incomplete) := split_incomplete all_args incomplete in
  choices_for ctx has_double_dash all_args incomplete.

(** [get_choices(cli, prog_name, args, incomplete)].  [resolve_ctx] always
    returns a context, so the test [ctx is None] never succeeds; the result
    is [None] only when the fuel given to [resolve_ctx] runs out. *)
Definition get_choices (fuel : nat) (cli : Command) (prog_name : string)
    (args : list string) (incomplete : string)
    : option (result (list candidate)) :=
  ctx ← resolve_ctx fuel cli prog_name args;
  Some (get_choices_from ctx args incomplete).

(** *** resolve_partial_value (shell_completion.py) *)

Inductive partial_value : Type :=
| OfCommand (cmd : Command)
| OfParam (param : Param).

(** Returns the object that handles the completion, the new [incomplete],
    and [all_args] as the function leaves it (it appends to the caller's
    list). *)
Definition resolve_partial_value (ctx : Ctx) (all_args : list string)
    (incomplete : string) : result (partial_value * string * list string) :=
  let has_double_dash := bool_decide ("--" ∈ all_args) in
  let '(all_args, incomplete) := split_incomplete all_args incomplete in
  if negb has_double_dash && start_of_option incomplete then
    Ok (OfCommand (command ctx), incomplete, all_args)
  else
    match first_incomplete_option all_args (get_params (command ctx)) with
    | Some param => Ok (OfParam param, incomplete, all_args)
    | None =>
        found ← first_incomplete_argument (params ctx) (get_params (command ctx));
        match found with
        | Some param => Ok (OfParam param, incomplete, all_args)
        | None => Ok (OfCommand (command ctx), incomplete, all_args)
        end
    end.

End Engine.

(** ** Shell adapters and the dispatcher (shell_completion.py) *)

(** Python classes, as far as [__base__] and subclassing are concerned.
    A class object is represented by its name and its bases, so that two
    class objects are the same exactly when their representations are;
    every class but [object] lists its bases, [object] included. *)
Inductive PyClass : Type := Build_PyClass {
  class_name : string;
  class_bases : list PyClass;
}.

Definition object_class : PyClass := Build_PyClass "object" [].

(** [c1 == c2] on classes: the same class object. *)
Fixpoint class_eqb (c1 c2 : PyClass) : bool :=
  match c1, c2 with
  | Build_PyClass n1 bases1, Build_PyClass n2 bases2 =>
      String.eqb n1 n2 &&
      (fix all_eqb (l1 l2 : list PyClass) : bool :=
         match l1, l2 with
         | [], [] => true
         | b1 :: l1', b2 :: l2' => class_eqb b1 b2 && all_eqb l1' l2'
         | _, _ => false
         end) bases1 bases2
  end.

(** [cls.__base__]: the first base ([None] for [object]). *)
Definition __base__ (cls : PyClass) : option PyClass := head (class_bases cls).

(** [issubclass(cls, K)]. *)
Fixpoint issubclass (cls K : PyClass) : bool :=
  class_eqb cls K ||
  match cls with
  | Build_PyClass _ bases => existsb (λ b, issubclass b K) bases
  end.

(** [cls] extends [K]: some base of [cls] is [K] or a subclass of [K]. *)
Definition extends (cls K : PyClass) : bool :=
  existsb (λ b, issubclass b K) (class_bases cls).

(** The attributes set by [ShellComplete.__init__]. *)
Record ShellCompleteObject : Type := {
  self_prog_name : string;
  self_complete_var : string;
  self_cli : Command;
}.

(** A completion class: its place in the class hierarchy and its two
    methods, which write to standard output through [echo]. *)
Record CompletionClass : Type := {
  py_class : PyClass;
  source : ShellCompleteObject → result string;
  complete : ShellCompleteObject → list string → result bool * list string;
}.

Definition ShellComplete_class : PyClass :=
  Build_PyClass "ShellComplete" [object_class].

Definition ShellComplete : CompletionClass := {|
  py_class := ShellComplete_class;
  source := λ _, Raise (NotImplementedError "source function needs to be overridden");
  complete := λ _ stdout,
    (Raise (NotImplementedError "complete function needs to be overridden"), stdout);
|}.

(** [prog_name.replace("-", "_")]. *)
Fixpoint replace_dash (s : string) : string :=
  match s with
  | EmptyString => EmptyString
  | String c s' =>
      String (if Ascii.eqb c "-" then "_"%char else c) (replace_dash s')
  end.

(** A character matched by [[^a-zA-Z0-9_]]. *)
Definition invalid_ident_char (c : ascii) : bool :=
  let n := nat_of_ascii c in
  negb ((97 <=? n) && (n <=? 122) || (65 <=? n) && (n <=? 90)
        || (48 <=? n) && (n <=? 57) || (n =? 95)).

(** [_invalid_ident_char_re.sub("", s)]. *)
Fixpoint remove_invalid_ident_chars (s : string) : string :=
  match s with
  | EmptyString => EmptyString
  | String c s' =>
      if invalid_ident_char c then remove_invalid_ident_chars s'
      else String c (remove_invalid_ident_chars s')
  end.

Section Shells.

(** The three script templates. *)
Variables COMPLETION_SCRIPT_BASH COMPLETION_SCRIPT_ZSH COMPLETION_SCRIPT_FISH
  : string.

(** The outcome of the probe [bash_version_not_usable()]. *)
Variable bash_version_not_usable : bool.

(** [template % mapping] and [s.strip()]. *)
Variable format : string → list (string * string) → string.
Variable strip : string → string.

(** The [complete] methods of the three adapters; they read the
    environment and print what [do_complete] returns. *)
Variables bash_complete zsh_complete fish_complete :
  ShellCompleteObject → list string → result bool * list string.

Definition BashComplete : CompletionClass := {|
  py_class := Build_PyClass "BashComplete" [ShellComplete_class];
  source := λ _,
    if bash_version_not_usable then
      Raise (Exception
        "Shell completion is not supported for bash versions older than 4.4")
    else Ok COMPLETION_SCRIPT_BASH;
  complete := bash_complete;
|}.

Definition ZshComplete : CompletionClass := {|
  py_class := Build_PyClass "ZshComplete" [ShellComplete_class];
  source := λ _, Ok COMPLETION_SCRIPT_ZSH;
  complete := zsh_complete;
|}.

Definition FishComplete : CompletionClass := {|
  py_class := Build_PyClass "FishComplete" [ShellComplete_class];
  source := λ _, Ok COMPLETION_SCRIPT_FISH;
  complete := fish_complete;
|}.

(** The initial value of the global [available_shells]. *)
Definition initial_shells : gmap string CompletionClass :=
  <["bash" := BashComplete]> (<["fish" := FishComplete]>
    (<["zsh" := ZshComplete]> ∅)).

(** The global dictionary is threaded through: the function returns its
    outcome and the dictionary as it leaves it. *)
Definition add_completion_class (name : string)
    (completion_class : CompletionClass)
    (available_shells : gmap string CompletionClass)
    : result unit * gmap string CompletionClass :=
  if match __base__ (py_class completion_class) with
     | Some base => negb (class_eqb base ShellComplete_class)
     | None => true
     end
  then
    (Raise (Exception "Completion class must extend `ShellComplete`"),
     available_shells)
  else (Ok (), <[name := completion_class]> available_shells).

Definition get_completion_source
    (available_shells : gmap string CompletionClass) (shell : string)
    : CompletionClass :=
  default ShellComplete (available_shells !! shell).

Definition get_completion_script
    (available_shells : gmap string CompletionClass) (cli : Command)
    (prog_name complete_var shell : string) : result string :=
  let cf_name := remove_invalid_ident_chars (replace_dash prog_name) in
  let completion_source := get_completion_source available_shells shell in
  let completion_object :=
    {| self_prog_name := prog_name; self_complete_var := complete_var;
       self_cli := cli |} in
  template ← source completion_source completion_object;
  Ok (strip (format template
               [("complete_func", "_" +:+ cf_name +:+ "_completion");
                ("script_names", prog_name);
                ("autocomplete_var", complete_var)]) +:+ ";").

(** The first statement of [shell_complete]: the command and the shell
    named by the instruction. *)
Definition split_instruction (complete_instr : string)
    : result (string * string) :=
  if str_in "_" complete_instr then
    match split_once complete_instr "_" with
    | [command; shell] => Ok (command, shell)
    | _ => Raise ValueError
    end
  else Ok (complete_instr, "bash").

(** [stdout] collects what [echo] prints, one entry for each call. *)
Definition shell_complete (available_shells : gmap string CompletionClass)
    (cli : Command) (prog_name complete_var complete_instr : string)
    (stdout : list string) : result bool * list string :=
  match split_instruction complete_instr with
  | Raise e => (Raise e, stdout)
  | Ok (command, shell) =>
      if String.eqb command "source" then
        match get_completion_script available_shells cli prog_name
                complete_var shell with
        | Raise e => (Raise e, stdout)
        | Ok script => (Ok true, stdout ++ [script])
        end
      else if String.eqb command "complete" then
        let completion_object :=
          {| self_prog_name := prog_name; self_complete_var := complete_var;
             self_cli := cli |} in
        complete (get_completion_source available_shells shell)
          completion_object stdout
      else (Ok false, stdout)
  end.

End Shells.


(** * Vocabulary of the statements *)

(** The contexts above [ctx], nearest first. *)
Fixpoint ancestors (ctx : Ctx) : list Ctx :=
  match ctx with
  | Build_Ctx _ None _ _ _ => []
  | Build_Ctx _ (Some p) _ _ _ => p :: ancestors p
  end.

(** The visible children of [cmd] that are listed under a name starting
    with [starts_with], in the order listed. *)
Definition visible_children (cmd : Command) (starts_with : string)
    : list Command :=
  match multi cmd with
  | Some m =>
      filter (λ c, ¬ cmd_hidden c)
        (omap (get_command m)
           (filter (λ k, startswith k starts_with) (list_commands m)))
  | None => []
  end.

Definition name_and_help (c : Command) : string * string :=
  (cmd_name c, get_short_help_str c).

(** What the context [a], met on the way up, adds to the subcommand names. *)
Definition chained_offer (a : Ctx) (incomplete : string)
    : list (string * string) :=
  if is_chained (command a) then
    name_and_help <$>
      filter (λ c, cmd_name c ∉ protected_args a)
        (visible_children (command a) incomplete)
  else [].

(** All subcommand names offered in [ctx], before sorting. *)
Definition subcommand_offer (ctx : Ctx) (incomplete : string)
    : list (string * string) :=
  (name_and_help <$> visible_children (command ctx) incomplete) ++
  (ancestors ctx ≫= (λ a, chained_offer a incomplete)).

(** The same in the words of the specification: the visible children of
    [cmd] whose names start with [starts_with], in the order listed. *)
Definition children_named (cmd : Command) (starts_with : string)
    : list Command :=
  match multi cmd with
  | Some m =>
      filter (λ c, ¬ cmd_hidden c ∧ startswith (cmd_name c) starts_with)
        (omap (get_command m) (list_commands m))
  | None => []
  end.

(** The matching children of a chained ancestor [a]: those whose name is
    not among its protected arguments. *)
Definition chained_named_offer (a : Ctx) (incomplete : string)
    : list (string * string) :=
  if is_chained (command a) then
    name_and_help <$>
      filter (λ c, cmd_name c ∉ protected_args a)
        (children_named (command a) incomplete)
  else [].

(** The children of the active command and of its chained ancestors that
    the specification names, each as often as it is met. *)
Definition named_offer (ctx : Ctx) (incomplete : string)
    : list (string * string) :=
  (name_and_help <$> children_named (command ctx) incomplete) ++
  (ancestors ctx ≫= (λ a, chained_named_offer a incomplete)).

(** Every name that a command lists resolves to a command. *)
Definition listed_commands_exist (cmd : Command) : Prop :=
  ∀ m, multi cmd = Some m →
    Forall (λ k, is_Some (get_command m k)) (list_commands m).

Definition well_listed (ctx : Ctx) : Prop :=
  Forall (λ c, listed_commands_exist (command c)) (ctx :: ancestors ctx).

(** Every command is listed under its own name, in [ctx] and above. *)
Definition named_as_listed (ctx : Ctx) : Prop :=
  Forall (λ a, ∀ m k c, multi (command a) = Some m →
                        get_command m k = Some c → cmd_name c = k)
    (ctx :: ancestors ctx).

(** The spellings of one parameter offered as option names. *)
Definition offered_spellings (all_args : list string) (incomplete : string)
    (param : Param) : list candidate :=
  match param with
  | Option p o =>
      if hidden o then []
      else
        (λ s, (VStr s, help o) : candidate) <$>
          filter (λ s, startswith s incomplete ∧ (s ∉ all_args ∨ multiple o))
            (opts p ++ secondary_opts p)
  | _ => []
  end.

(** What is being completed. *)
Inductive classification : Type :=
| OptionNames
| OptionValue (param : Param)
| ArgumentValue (param : Param)
| SubcommandNames.

(** The priority order of the classification, for the values that
    [has_double_dash], [all_args] and [incomplete] have after the [=]
    normalisation. *)
Inductive classifies (ctx : Ctx) (has_double_dash : bool)
    (all_args : list string) (incomplete : string) : classification → Prop :=
| classifies_option_names :
    has_double_dash = false → start_of_option incomplete = true →
    classifies ctx has_double_dash all_args incomplete OptionNames
| classifies_option_value pre param post :
    ¬ (has_double_dash = false ∧ start_of_option incomplete = true) →
    get_params (command ctx) = pre ++ param :: post →
    Forall (λ q, is_incomplete_option all_args q = false) pre →
    is_incomplete_option all_args param = true →
    classifies ctx has_double_dash all_args incomplete (OptionValue param)
| classifies_argument_value pre param post :
    ¬ (has_double_dash = false ∧ start_of_option incomplete = true) →
    Forall (λ q, is_incomplete_option all_args q = false)
      (get_params (command ctx)) →
    get_params (command ctx) = pre ++ param :: post →
    Forall (λ q, is_incomplete_argument (params ctx) q = Ok false) pre →
    is_incomplete_argument (params ctx) param = Ok true →
    classifies ctx has_double_dash all_args incomplete (ArgumentValue param)
| classifies_subcommand_names :
    ¬ (has_double_dash = false ∧ start_of_option incomplete = true) →
    Forall (λ q, is_incomplete_option all_args q = false)
      (get_params (command ctx)) →
    Forall (λ q, is_incomplete_argument (params ctx) q = Ok false)
      (get_params (command ctx)) →
    classifies ctx has_double_dash all_args incomplete SubcommandNames.

(** The object that [resolve_partial_value] returns for a classification. *)
Definition handler (ctx : Ctx) (k : classification) : partial_value :=
  match k with
  | OptionNames | SubcommandNames => OfCommand (command ctx)
  | OptionValue param | ArgumentValue param => OfParam param
  end.

(** The candidates that [get_choices] returns for a classification. *)
Definition candidates_of
    (autocompletion_call :
       callback → Ctx → list string → string → result (list completion_item))
    (ctx : Ctx) (all_args : list string)
    (incomplete : string) (k : classification) : result (list candidate) :=
  match k with
  | OptionNames =>
      Ok (get_params (command ctx) ≫= offered_spellings all_args incomplete)
  | OptionValue param | ArgumentValue param =>
      get_user_autocompletions autocompletion_call ctx all_args incomplete param
  | SubcommandNames =>
      names ← add_subcommand_completions ctx incomplete [];
      Ok ((λ c, (VStr c.1, Some c.2) : candidate) <$> sorted names)
  end.


(** [cls] is declared with [K] as its first base. *)
Definition directly_extends (cls K : PyClass) : bool :=
  match __base__ cls with
  | Some base => class_eqb base K
  | None => false
  end.

(** * Example command trees *)

(** Callbacks of the examples: [get_colors] yields the colours that start
    with [incomplete], the last one with a description. *)
Definition example_callbacks (f : callback) (ctx : Ctx) (args : list string)
    (incomplete : string) : result (list completion_item) :=
  if String.eqb f "get_colors" then
    Ok (filter (λ c, startswith (py_str match c with
                                         | Bare v | Tuple v _ => v
                                         end) incomplete)
          [Bare (VStr "red"); Bare (VStr "green");
           Tuple (VStr "blue") (Some "a colour")])
  else Raise (Exception "unknown callback").

(** A stand-in for the parser of [click.core], enough for the examples: no
    parameter gets a value, a chained group protects all its tokens, any
    other group protects the first one, and a plain command leaves its
    tokens unparsed. *)
Definition example_make_context (cmd : Command) (info_name : string)
    (args : list string) (parent : option Ctx) (chained_child : bool) : Ctx :=
  let values : gmap string pyval :=
    list_to_map ((λ p, (name (attrs p), PyNone)) <$> get_params cmd) in
  match multi cmd with
  | Some m =>
      if chain m then Build_Ctx cmd parent values args []
      else Build_Ctx cmd parent values (take 1 args) (drop 1 args)
  | None => Build_Ctx cmd parent values [] args
  end.

(** The same parser, except that it takes the tokens that start an option
    out of the tokens that it leaves, as the parser of [click.core] does
    with the options that it knows. *)
Definition option_consuming_make_context (cmd : Command) (info_name : string)
    (args : list string) (parent : option Ctx) (chained_child : bool) : Ctx :=
  example_make_context cmd info_name
    (filter (λ arg, ¬ start_of_option arg) args) parent chained_child.

Definition example_resolve_command (cmd : Command) (ctx : Ctx)
    (args : list string) : string * option Command * list string :=
  match args with
  | [] => ("", None, [])
  | cmd_name :: rest =>
      (cmd_name, m ← multi cmd; get_command m cmd_name, rest)
  end.

Fixpoint lookup_command (commands : list (string * Command)) (name : string)
    : option Command :=
  match commands with
  | [] => None
  | (k, c) :: commands' =>
      if String.eqb k name then Some c else lookup_command commands' name
  end.

(** A multi command over a table of commands. *)
Definition example_group (name : string) (chain : bool)
    (get_params : list Param) (commands : list (string * Command)) : Command :=
  {| cmd_name := name; cmd_hidden := false; get_short_help_str := "";
     get_params := get_params;
     multi := Some {| chain := chain; list_commands := commands.*1;
                      get_command := lookup_command commands |} |}.

Definition example_command (name short_help : string)
    (get_params : list Param) : Command :=
  {| cmd_name := name; cmd_hidden := false; get_short_help_str := short_help;
     get_params := get_params; multi := None |}.

Definition example_option (name : string) (opts : list string) (nargs : Z)
    (type : ParamType) (is_flag : bool) (help : option string) : Param :=
  Option {| name := name; opts := opts; secondary_opts := []; nargs := nargs;
            type := type; autocompletion := None |}
         {| is_flag := is_flag; multiple := false; hidden := false;
            help := help |}.

Definition example_argument (name : string) (type : ParamType)
    (autocompletion : option callback) : Param :=
  Argument {| name := name; opts := [name]; secondary_opts := []; nargs := 1;
              type := type; autocompletion := autocompletion |}.

(** [--pos] takes two values. *)
Definition pos_option : Param :=
  example_option "pos" ["--pos"] 2 OtherType false None.

(** A command with the flag [--foo/-f]. *)
Definition foo_cli : Command :=
  example_command "cli" ""
    [example_option "foo" ["--foo"; "-f"] 1 OtherType true (Some "foo help")].

(** A command with the option [--opt1] over two choices. *)
Definition opt1_cli : Command :=
  example_command "cli" ""
    [example_option "opt1" ["--opt1"] 1
       (Choice [VStr "opt11"; VStr "opt12"]) false None].

(** A group with an option, a choice argument and two subcommands. *)
Definition arg_cli : Command :=
  example_group "cli" false
    [example_option "cli_opt" ["--cli-opt"] 1 OtherType false None;
     example_argument "arg" (Choice [VStr "cliarg1"; VStr "cliarg2"]) None]
    [("asub", example_command "asub" "" []);
     ("bsub", example_command "bsub" "" [])].

(** A command whose argument is completed by a callback. *)
Definition color_cli : Command :=
  example_command "cli" ""
    [example_argument "color" OtherType (Some "get_colors")].

(** A chained group with three subcommands. *)
Definition chain_cli : Command :=
  example_group "cli" true []
    [("asub", example_command "asub" "" []);
     ("bsub", example_command "bsub" "bsub help" []);
     ("csub", example_command "csub" "" [])].

(** A chained multi command with the child [x] and the group [sub], which
    has a child [x] of its own. *)
Definition x_command : Command := example_command "x" "" [].

Definition nested_chain_cli : Command :=
  example_group "cli" true []
    [("sub", example_group "sub" false [] [("x", x_command)]);
     ("x", x_command)].

(** A chained group whose child [real] is registered under the name
    [alias], as [cli.add_command(real, name="alias")] does. *)
Definition real_command : Command := example_command "real" "real help" [].

Definition bsub_command : Command := example_command "bsub" "" [].

Definition alias_cli : Command :=
  example_group "cli" true []
    [("alias", real_command); ("bsub", bsub_command)].

(** A completion class that extends [ShellComplete] through a class in
    between. *)
Definition MyBashComplete : CompletionClass := {|
  py_class :=
    Build_PyClass "MyBashComplete"
      [Build_PyClass "BashComplete" [ShellComplete_class]];
  source := λ _, Ok "script";
  complete := λ _ stdout, (Ok true, stdout);
|}.

(** A completion class declared as [class MyComplete(ShellComplete)]. *)
Definition MyComplete : CompletionClass := {|
  py_class := Build_PyClass "MyComplete" [ShellComplete_class];
  source := λ _, Ok "script";
  complete := λ _ stdout, (Ok true, stdout);
|}.

(** The contexts that the stand-in parser builds for [cli asub] on
    [chain_cli], for [cli sub] on [nested_chain_cli], and at the root of
    the other examples. *)
Definition chain_root_ctx : Ctx :=
  example_make_context chain_cli "cli" ["asub"] None false.

Definition asub_ctx : Ctx :=
  example_make_context (example_command "asub" "" []) "asub" []
    (Some chain_root_ctx) true.

Definition nested_root_ctx : Ctx :=
  example_make_context nested_chain_cli "cli" ["sub"] None false.

Definition nested_sub_ctx : Ctx :=
  example_make_context (example_group "sub" false [] [("x", x_command)])
    "sub" [] (Some nested_root_ctx) true.

(** The contexts for [cli bsub] on [alias_cli]. *)
Definition alias_root_ctx : Ctx :=
  example_make_context alias_cli "cli" ["bsub"] None false.

Definition alias_bsub_ctx : Ctx :=
  example_make_context bsub_command "bsub" [] (Some alias_root_ctx) true.

Definition arg_ctx : Ctx := example_make_context arg_cli "cli" [] None false.

Definition foo_ctx : Ctx :=
  example_make_context foo_cli "cli" ["--foo"] None false.

Definition opt1_ctx : Ctx := example_make_context opt1_cli "cli" [] None false.

Definition color_ctx : Ctx :=
  example_make_context color_cli "cli" [] None false.

(** Stand-ins for [%] and [strip] on scripts without place holders, and the
    initial dictionary of shells over three one-line scripts. *)
Definition example_format (template : string)
    (mapping : list (string * string)) : string := template.

Definition example_strip (s : string) : string := s.

Definition example_shells : gmap string CompletionClass :=
  initial_shells "bash script" "zsh script" "fish script" false
    (λ _ stdout, (Ok true, stdout ++ ["bash candidates"]))
    (λ _ stdout, (Ok true, stdout ++ ["zsh candidates"]))
    (λ _ stdout, (Ok true, stdout ++ ["fish candidates"])).

(** * The adapters' methods and [do_complete] (shell_completion.py) *)

(** An item of the list that [do_complete] returns: [(type, value, help)]. *)
Definition completion_triple : Type := string * value * option string.

(** [l[i]] for a Python list: a negative index counts from the end;
    [None] stands for [IndexError]. *)
Definition py_index {A} (l : list A) (i : Z) : option A :=
  if bool_decide (0 ≤ i)%Z then l !! Z.to_nat i
  else if bool_decide (- Z.of_nat (length l) ≤ i)%Z
       then l !! Z.to_nat (Z.of_nat (length l) + i)
       else None.

(** The position that a bound of a slice denotes in a list of length
    [len]: a negative bound counts from the end, and both are clipped. *)
Definition slice_bound (len : nat) (i : Z) : nat :=
  if bool_decide (i < 0)%Z then Z.to_nat (Z.max (i + Z.of_nat len) 0)
  else Z.to_nat (Z.min i (Z.of_nat len)).

(** [l[start:stop]]. *)
Definition py_slice {A} (l : list A) (start stop : Z) : list A :=
  let lo := slice_bound (length l) start in
  let hi := slice_bound (length l) stop in
  take (hi - lo) (drop lo l).

(** Truth value of an optional string: [None] and the empty string are
    false. *)
Definition truthy (s : option string) : bool :=
  match s with
  | Some s => negb (String.eqb s "")
  | None => false
  end.

(** The tab character. *)
Definition TAB : string := String "009" "".

(** [f"{item[0]},{item[1]}"]. *)
Definition type_and_value (item : completion_triple) : string :=
  item.1.1 +:+ "," +:+ py_str item.1.2.

(** What the loop of [ZshComplete.complete] prints for one item. *)
Definition zsh_lines (item : completion_triple) : list string :=
  [py_str item.1.2; if truthy item.2 then default "" item.2 else "_"].

(** What the loop of [FishComplete.complete] prints for one item. *)
Definition fish_line (item : completion_triple) : string :=
  if truthy item.2 then type_and_value item +:+ TAB +:+ default "" item.2
  else type_and_value item.

Section Adapters.

Variable make_context :
  Command → string → list string → option Ctx → bool → Ctx.
Variable resolve_command :
  Command → Ctx → list string → string * option Command * list string.

(** [partial_value.shell_complete(ctx, all_args, incomplete)], a method of
    the commands and parameters of [click.core]. *)
Variable object_shell_complete :
  partial_value → Ctx → list string → string →
  result (list completion_triple).

(** [os.environ], [split_arg_string] of [click.parser] and [int]. *)
Variable environ : gmap string string.
Variable split_arg_string : string → list string.
Variable int : string → result Z.

(** The result is [None] only when the fuel of [resolve_ctx] runs out. *)
Definition do_complete (fuel : nat) (cli : Command) (prog_name : string)
    (args : list string) (incomplete : string)
    : option (result (list completion_triple)) :=
  let all_args := args in
  ctx ← resolve_ctx make_context resolve_command fuel cli prog_name args;
  Some (match resolve_partial_value ctx all_args incomplete with
        | Raise e => Raise e
        | Ok (partial_value, incomplete, all_args) =>
            object_shell_complete partial_value ctx all_args incomplete
        end).

(** The end of the three [complete] methods: call [do_complete], print
    the lines of every item, return [True]. *)
Definition complete_and_echo (lines : completion_triple → list string)
    (fuel : nat) (self : ShellCompleteObject) (args : list string)
    (incomplete : string) (stdout : list string)
    : option (result bool * list string) :=
  completions ←
    do_complete fuel (self_cli self) (self_prog_name self) args incomplete;
  Some (match completions with
        | Raise e => (Raise e, stdout)
        | Ok completions => (Ok true, stdout ++ (completions ≫= lines))
        end).

(** The head of [BashComplete.complete] and [ZshComplete.complete]: the
    words before the cursor and the word under it. *)
Definition words_at_cursor : result (list string * string) :=
  match environ !! "COMP_WORDS" with
  | None => Raise (KeyError "COMP_WORDS")
  | Some comp_words =>
      let cwords := split_arg_string comp_words in
      match environ !! "COMP_CWORD" with
      | None => Raise (KeyError "COMP_CWORD")
      | Some comp_cword =>
          match int comp_cword with
          | Raise e => Raise e
          | Ok cword =>
              let args := py_slice cwords 1 cword in
              let incomplete := default "" (py_index cwords cword) in
              Ok (args, incomplete)
          end
      end
  end.

Definition BashComplete_complete (fuel : nat) (self : ShellCompleteObject)
    (stdout : list string) : option (result bool * list string) :=
  match words_at_cursor with
  | Raise e => Some (Raise e, stdout)
  | Ok (args, incomplete) =>
      complete_and_echo (λ item, [type_and_value item]) fuel self args
        incomplete stdout
  end.

Definition ZshComplete_complete (fuel : nat) (self : ShellCompleteObject)
    (stdout : list string) : option (result bool * list string) :=
  match words_at_cursor with
  | Raise e => Some (Raise e, stdout)
  | Ok (args, incomplete) =>
      complete_and_echo zsh_lines fuel self args incomplete stdout
  end.

Definition FishComplete_complete (fuel : nat) (self : ShellCompleteObject)
    (stdout : list string) : option (result bool * list string) :=
  match environ !! "COMP_WORDS" with
  | None => Some (Raise (KeyError "COMP_WORDS"), stdout)
  | Some comp_words =>
      let cwords := split_arg_string comp_words in
      match environ !! "COMP_CWORD" with
      | None => Some (Raise (KeyError "COMP_CWORD"), stdout)
      | Some incomplete =>
          let args := drop 1 cwords in
          let args :=
            if negb (String.eqb incomplete "")
               && bool_decide (args ≠ [])
               && bool_decide (last args = Some incomplete)
            then take (length args - 1) args
            else args in
          complete_and_echo (λ item, [fish_line item]) fuel self args
            incomplete stdout
      end
  end.

End Adapters.

(** An environment for the examples: the line [cli asub b] with the cursor
    on its third word. *)
Definition example_environ : gmap string string :=
  <["COMP_WORDS" := "cli asub b"]> (<["COMP_CWORD" := "2"]> ∅).

(** Stand-ins for [split_arg_string] and [int] on the examples. *)
Definition example_split_arg_string (s : string) : list string :=
  String.words s.

Definition example_int (s : string) : result Z :=
  if String.eqb s "2" then Ok 2%Z
  else if String.eqb s "7" then Ok 7%Z
  else Raise ValueError.

(** A stand-in for the [shell_complete] methods of [click.core]: the
    candidates of [choices_for], each of type [none]. *)
Definition example_object_shell_complete (handler : partial_value)
    (ctx : Ctx) (all_args : list string) (incomplete : string)
    : result (list completion_triple) :=
  match choices_for example_callbacks ctx (bool_decide ("--" ∈ all_args))
          all_args incomplete with
  | Ok candidates =>
      Ok ((λ c : candidate, ("none", c.1, c.2) : completion_triple) <$>
            candidates)
  | Raise e => Raise e
  end.

(** The line [cli asub b] as fish hands it over: the word under the cursor
    is the value of [COMP_CWORD]. *)
Definition example_fish_environ : gmap string string :=
  <["COMP_WORDS" := "cli asub b"]> (<["COMP_CWORD" := "b"]> ∅).

(** A parser that records no value at all, as the parser of [click.core]
    does for a parameter declared with [expose_value=False]. *)
Definition unexposed_make_context (cmd : Command) (info_name : string)
    (args : list string) (parent : option Ctx) (chained_child : bool) : Ctx :=
  Build_Ctx cmd parent ∅ [] args.

(** A command with one argument. *)
Definition unexposed_cli : Command :=
  example_command "cli" "" [example_argument "arg" OtherType None].

(** A group with a variadic argument and two subcommands, and a parser
    for it that, as the parser of [click.core] does, gives all the tokens to
    the variadic argument as a tuple and leaves none for the subcommands. *)
Definition files_argument : ParameterAttrs :=
  {| name := "files"; opts := ["files"]; secondary_opts := [];
     nargs := (-1)%Z; type := OtherType; autocompletion := None |}.

Definition variadic_cli : Command :=
  example_group "cli" false [Argument files_argument]
    [("asub", example_command "asub" "" []);
     ("bsub", example_command "bsub" "" [])].

Definition variadic_make_context (cmd : Command) (info_name : string)
    (args : list string) (parent : option Ctx) (chained_child : bool) : Ctx :=
  Build_Ctx cmd parent
    (list_to_map ((λ p, (name (attrs p), PyTuple (VStr <$> args))) <$>
                    get_params cmd))
    [] [].

Definition variadic_ctx : Ctx :=
  variadic_make_context variadic_cli "cli" ["one"] None false.

(** A group that lists a name which it does not resolve. *)
Definition ghost_group : MultiCommand Command :=
  {| chain := false; list_commands := ["ghost"]; get_command := λ _, None |}.

Definition ghost_cli : Command :=
  {| cmd_name := "cli"; cmd_hidden := false; get_short_help_str := "";
     get_params := []; multi := Some ghost_group |}.

(** The attributes of [--pos] and of [--opt1]. *)
Definition pos_attrs : ParameterAttrs :=
  {| name := "pos"; opts := ["--pos"]; secondary_opts := []; nargs := 2;
     type := OtherType; autocompletion := None |}.

Definition opt1_attrs : ParameterAttrs :=
  {| name := "opt1"; opts := ["--opt1"]; secondary_opts := []; nargs := 1;
     type := Choice [VStr "opt11"; VStr "opt12"]; autocompletion := None |}.

Definition plain_option : OptionAttrs :=
  {| is_flag := false; multiple := false; hidden := false; help := None |}.

(** The dictionary of shells on a machine whose bash is too old. *)
Definition old_bash_shells : gmap string CompletionClass :=
  initial_shells "bash script" "zsh script" "fish script" true
    (λ _ stdout, (Ok true, stdout ++ ["bash candidates"]))
    (λ _ stdout, (Ok true, stdout ++ ["zsh candidates"]))
    (λ _ stdout, (Ok true, stdout ++ ["fish candidates"])).
(** * Properties *)

(** ** Strings *)

Example start_of_option_examples :
  start_of_option "--opt" = true ∧ start_of_option "-" = true ∧
  start_of_option "" = false ∧ start_of_option "opt" = false.
Proof. done. Qed.

Example partition_examples :
  partition "--opt1=op" "=" = ("--opt1", "=", "op") ∧
  partition "--a=b=c" "=" = ("--a", "=", "b=c") ∧
  partition "abc" "=" = ("abc", "", "").
Proof. done. Qed.

Lemma start_of_option_nonempty (s : string) :
  start_of_option s = true → s ≠ "".
Proof. by destruct s. Qed.

Lemma start_of_option_cons (c : ascii) (s : string) :
  start_of_option (String c s) = Ascii.eqb c "-".
Proof.
  unfold start_of_option; simpl. destruct s; simpl;
    by destruct (Ascii.eqb c "-").
Qed.

Lemma prefix_char (c : ascii) (s : string) :
  String.prefix (String c "") s = true ↔ ∃ s', s = String c s'.
Proof.
  destruct s as [|a s]; simpl.
  - split; [done|]. by intros [? ?].
  - destruct (ascii_dec c a) as [->|Hne].
    + split; [eauto|]. by destruct s.
    + split; [done|]. intros [? [= ? ?]]. by subst.
Qed.

Lemma str_in_cons (c a : ascii) (s : string) :
  str_in (String c "") (String a s) = Ascii.eqb c a || str_in (String c "") s.
Proof.
  cbn [str_in]. f_equal. simpl.
  destruct (ascii_dec c a) as [->|Hne].
  - rewrite Ascii.eqb_refl. by destruct s.
  - by apply Ascii.eqb_neq in Hne as ->.
Qed.

Lemma str_in_append_char (c : ascii) (s t : string) :
  str_in (String c "") (s +:+ String c t) = true.
Proof.
  induction s as [|a s IH]; cbn [String.append].
  - change ("" +:+ String c t) with (String c t).
    rewrite str_in_cons, Ascii.eqb_refl. done.
  - change (String a s +:+ String c t) with (String a (s +:+ String c t)).
    rewrite str_in_cons, IH. apply orb_true_r.
Qed.

Lemma partition_first (c : ascii) (before after : string) :
  str_in (String c "") before = false →
  partition (before +:+ String c after) (String c "") = (before, String c "", after).
Proof.
  induction before as [|a before IH]; intros Hin.
  - simpl. destruct (ascii_dec c c); [|done]. by destruct after.
  - rewrite str_in_cons in Hin. apply orb_false_iff in Hin as [Hca Hin].
    change (String a before +:+ String c after)
      with (String a (before +:+ String c after)).
    cbn [partition].
    replace (String.prefix (String c "") (String a (before +:+ String c after)))
      with false.
    + by rewrite (IH Hin).
    + simpl. destruct (ascii_dec c a) as [->|]; [|done].
      by rewrite Ascii.eqb_refl in Hca.
Qed.

Lemma partition_absent (c : ascii) (s : string) :
  str_in (String c "") s = false → partition s (String c "") = (s, "", "").
Proof.
  induction s as [|a s IH]; intros Hin; [done|].
  rewrite str_in_cons in Hin. apply orb_false_iff in Hin as [Hca Hin].
  cbn [partition]. replace (String.prefix (String c "") (String a s)) with false.
  - by rewrite (IH Hin).
  - simpl. destruct (ascii_dec c a) as [->|]; [|done].
    by rewrite Ascii.eqb_refl in Hca.
Qed.

(** Every string containing the character splits at its first occurrence. *)
Lemma str_in_split (c : ascii) (s : string) :
  str_in (String c "") s = true →
  ∃ before after, s = before +:+ String c after ∧ str_in (String c "") before = false.
Proof.
  induction s as [|a s IH]; intros Hin; [done|].
  rewrite str_in_cons in Hin.
  destruct (Ascii.eqb c a) eqn:Hca.
  - apply Ascii.eqb_eq in Hca as <-. by exists "", s.
  - destruct (IH Hin) as (before & after & -> & Hb).
    exists (String a before), after. split; [done|].
    by rewrite str_in_cons, Hca, Hb.
Qed.

(** ** Ordering and [sorted] *)

#[global] Instance tuple_le_total : Total tuple_le.
Proof.
  intros [x1 x2] [y1 y2]. unfold tuple_le; simpl.
  destruct (decide (x1 = y1)) as [->|Hne].
  - destruct (total String.le x2 y2); [left|right]; done.
  - destruct (total String.le x1 y1); [left|right]; split; done.
Qed.

#[global] Instance tuple_le_trans : Transitive tuple_le.
Proof.
  intros [x1 x2] [y1 y2] [z1 z2] [Hxy Hxy'] [Hyz Hyz']; simpl in *.
  split; simpl; [by etrans|].
  intros ->. assert (y1 = z1) as -> by (by apply (anti_symm String.le)).
  etrans; [by apply Hxy'|by apply Hyz'].
Qed.

#[global] Instance tuple_le_antisymm : AntiSymm (=) tuple_le.
Proof.
  intros [x1 x2] [y1 y2] [Hxy Hxy'] [Hyx Hyx']; simpl in *.
  assert (x1 = y1) as -> by (by apply (anti_symm String.le)).
  f_equal. apply (anti_symm String.le); auto.
Qed.


Lemma sorted_Permutation (l : list (string * string)) : sorted l ≡ₚ l.
Proof. apply (merge_sort_Permutation tuple_le). Qed.



(** ** The classifier primitives *)

Lemma scan_last_option_spec (n i : Z) (rargs : list string) (acc : option string) :
  scan_last_option n i rargs acc =
  match last (filter (λ t, start_of_option t) (take (Z.to_nat (n - i)) rargs)) with
  | Some t => Some t
  | None => acc
  end.
Proof.
  revert i acc. induction rargs as [|arg_str rargs IH]; intros i acc; simpl.
  - by rewrite take_nil.
  - case_bool_decide as Hbreak.
    + replace (Z.to_nat (n - i)) with 0%nat by lia. done.
    + replace (Z.to_nat (n - i)) with (S (Z.to_nat (n - (i + 1)))) by lia.
      rewrite IH. simpl. rewrite filter_cons.
      destruct (decide (start_of_option arg_str)) as [Hopt|Hopt].
      * apply Is_true_true in Hopt. rewrite Hopt, last_cons.
        by destruct (last _).
      * apply Is_true_false in Hopt. by rewrite Hopt.
Qed.

Lemma scan_last_option_window (n : Z) (all_args : list string) :
  scan_last_option n 0
    (reverse (filter (λ arg, arg ≠ WORDBREAK) all_args)) None =
  head (flags_in_window n all_args).
Proof.
  rewrite scan_last_option_spec, Z.sub_0_r. unfold flags_in_window, last_tokens.
  rewrite take_reverse, filter_reverse, last_reverse. by destruct (head _).
Qed.

Lemma flags_in_window_start (n : Z) (all_args : list string) (t : string) :
  t ∈ flags_in_window n all_args → start_of_option t = true.
Proof.
  unfold flags_in_window. intros [Ht _]%list_elem_of_filter.
  by apply Is_true_true.
Qed.

(** What [is_incomplete_option] computes: it is false for a parameter that
    is not an [Option] and for a flag.  For any other option it is true
    exactly when, among the last [nargs] tokens (tokens equal to [=] removed
    first), some token starts an option and the first such token in the
    order typed, the one farthest from the end of the list, is one of
    [opts]: the loop goes on after a hit, and a later hit replaces it. *)
Lemma is_incomplete_option_first_flag_in_window :
  (∀ p o all_args, is_flag o = false →
     is_incomplete_option all_args (Option p o) = true ↔
     ∃ t, head (flags_in_window (nargs p) all_args) = Some t ∧ t ∈ opts p) ∧
  (∀ p o all_args, is_flag o = true →
     is_incomplete_option all_args (Option p o) = false) ∧
  (∀ cmd_param all_args, (∀ p o, cmd_param ≠ Option p o) →
     is_incomplete_option all_args cmd_param = false).
Proof.
  split; [|split].
  - intros p o all_args Hflag. unfold is_incomplete_option.
    rewrite Hflag, scan_last_option_window.
    destruct (head _) as [t|] eqn:Hhead.
    + assert (Ht : t ≠ "").
      { apply start_of_option_nonempty, (flags_in_window_start (nargs p) all_args).
        by apply head_Some_elem_of. }
      apply String.eqb_neq in Ht. rewrite Ht. simpl.
      rewrite bool_decide_eq_true. split; [eauto|]. by intros (? & [= <-] & ?).
    + split; [done|]. by intros (? & ? & ?).
  - intros p o all_args Hflag. simpl. by rewrite Hflag.
  - intros [p o|p|p] all_args Hne; [by destruct (Hne p o)|done..].
Qed.

(** ** Subcommand candidates *)

Lemma Ctx_parent_ind (P : Ctx → Prop) :
  (∀ ctx, parent ctx = None → P ctx) →
  (∀ ctx p, parent ctx = Some p → P p → P ctx) →
  ∀ ctx, P ctx.
Proof.
  intros Hroot Hstep. fix IH 1. intros [cmd [p|] ps pa a].
  - apply (Hstep _ p); [done|apply IH].
  - by apply Hroot.
Qed.

Lemma visible_commands_listed (m : MultiCommand Command) (names : list string)
    (starts_with : string) :
  Forall (λ k, is_Some (get_command m k)) names →
  visible_commands m names starts_with =
  Ok (filter (λ c, ¬ cmd_hidden c)
        (omap (get_command m)
           (filter (λ k, startswith k starts_with) names))).
Proof.
  induction 1 as [|k names [c Hc] _ IH]; [done|].
  simpl. rewrite filter_cons.
  destruct (decide (startswith k starts_with)) as [Hk|Hk].
  - apply Is_true_true in Hk. rewrite Hk, Hc, IH. simpl. rewrite Hc.
    rewrite filter_cons. by destruct (cmd_hidden c).
  - apply Is_true_false in Hk. by rewrite Hk, IH.
Qed.

Lemma get_visible_commands_listed (ctx : Ctx) (starts_with : string) :
  listed_commands_exist (command ctx) → is_Some (multi (command ctx)) →
  get_visible_commands_starting_with ctx starts_with =
  Ok (visible_children (command ctx) starts_with).
Proof.
  intros Hlisted [m Hm].
  unfold get_visible_commands_starting_with, visible_children. rewrite Hm.
  by apply visible_commands_listed, Hlisted.
Qed.

Lemma add_chained_completions_listed (ctx : Ctx) (incomplete : string)
    (completions_out : list (string * string)) :
  Forall (λ c, listed_commands_exist (command c)) (ancestors ctx) →
  add_chained_completions ctx incomplete completions_out =
  Ok (completions_out ++
        (ancestors ctx ≫= (λ a, chained_offer a incomplete))).
Proof.
  revert completions_out.
  induction ctx as [ctx Hroot|ctx p Hp IH] using Ctx_parent_ind;
    intros completions_out Hlisted;
    destruct ctx as [cmd parent' ps pa a]; simpl in *; subst.
  - by rewrite app_nil_r.
  - apply Forall_cons in Hlisted as [Hp Hrest].
    unfold chained_offer at 1.
    destruct (is_chained (command p)) eqn:Hchain.
    + rewrite get_visible_commands_listed; [|done|].
      * simpl. rewrite IH by done. by rewrite Hchain, <-app_assoc.
      * unfold is_chained in Hchain. by destruct (multi (command p)).
    + rewrite IH by done. simpl. by rewrite Hchain.
Qed.

Lemma add_subcommand_completions_listed (ctx : Ctx) (incomplete : string)
    (completions_out : list (string * string)) :
  well_listed ctx →
  add_subcommand_completions ctx incomplete completions_out =
  Ok (completions_out ++ subcommand_offer ctx incomplete).
Proof.
  intros [Hctx Hrest]%Forall_cons.
  unfold add_subcommand_completions, subcommand_offer.
  destruct (multi (command ctx)) as [m|] eqn:Hm.
  - rewrite get_visible_commands_listed; [|done|by rewrite Hm]. simpl.
    rewrite add_chained_completions_listed by done. by rewrite <-app_assoc.
  - simpl. rewrite add_chained_completions_listed by done.
    unfold visible_children. by rewrite Hm.
Qed.





(** ** Option names *)

Lemma complete_option_names_spec (ps : list Param) (all_args : list string)
    (incomplete : string) (completions : list candidate) :
  complete_option_names ps all_args incomplete completions =
  completions ++ (ps ≫= offered_spellings all_args incomplete).
Proof.
  revert completions.
  induction ps as [|[p o|p|p] ps IH]; intros completions; simpl.
  - by rewrite app_nil_r.
  - destruct (hidden o); simpl; rewrite IH; [done|].
    by rewrite <-app_assoc, list_filter_filter.
  - by rewrite IH.
  - by rewrite IH.
Qed.

Lemma elem_of_offered_spellings_option (all_args : list string)
    (incomplete : string) (p : ParameterAttrs) (o : OptionAttrs)
    (s : string) (h : option string) :
  (VStr s, h) ∈ offered_spellings all_args incomplete (Option p o) ↔
  hidden o = false ∧ s ∈ opts p ++ secondary_opts p ∧
  startswith s incomplete = true ∧ (s ∉ all_args ∨ multiple o = true) ∧
  h = help o.
Proof.
  simpl. destruct (hidden o) eqn:Hhidden.
  - split; [by inversion 1|by intros [? _]].
  - rewrite list_elem_of_fmap. setoid_rewrite list_elem_of_filter.
    setoid_rewrite Is_true_true. naive_solver.
Qed.

Lemma elem_of_offered_spellings (all_args : list string) (incomplete : string)
    (ps : list Param) (s : string) (h : option string) :
  (VStr s, h) ∈ ps ≫= offered_spellings all_args incomplete ↔
  ∃ p o, Option p o ∈ ps ∧ hidden o = false ∧
         s ∈ opts p ++ secondary_opts p ∧ startswith s incomplete = true ∧
         (s ∉ all_args ∨ multiple o = true) ∧ h = help o.
Proof.
  rewrite list_elem_of_bind. split.
  - intros ([p o|p|p] & Hin & Hps); [|by inversion Hin..].
    apply elem_of_offered_spellings_option in Hin. naive_solver.
  - intros (p & o & Hps & Hrest). exists (Option p o). split; [|done].
    by apply elem_of_offered_spellings_option.
Qed.

(** ** Value candidates *)

Section EngineFacts.

Variable autocompletion_call :
  callback → Ctx → list string → string → result (list completion_item).
Variable make_context :
  Command → string → list string → option Ctx → bool → Ctx.
Variable resolve_command :
  Command → Ctx → list string → string * option Command * list string.

(** Unfolding of the engine's functions, whose names the abbreviations
    below take over. *)
Ltac unfold_get_choices := unfold get_choices, get_choices_from.
Ltac unfold_choices_for := unfold choices_for.
Ltac unfold_autocompletions := unfold get_user_autocompletions.

Local Abbreviation get_choices :=
  (get_choices autocompletion_call make_context resolve_command).
Local Abbreviation get_choices_from := (get_choices_from autocompletion_call).
Local Abbreviation choices_for := (choices_for autocompletion_call).
Local Abbreviation resolve_ctx := (resolve_ctx make_context resolve_command).
Local Abbreviation get_user_autocompletions :=
  (get_user_autocompletions autocompletion_call).
Local Abbreviation candidates_of := (candidates_of autocompletion_call).

Lemma get_choices_resolved (fuel : nat) (cli : Command) (prog_name : string)
    (args : list string) (incomplete : string) (ctx : Ctx) :
  resolve_ctx fuel cli prog_name args = Some ctx →
  get_choices fuel cli prog_name args incomplete =
  Some (get_choices_from ctx args incomplete).
Proof. intros H. unfold_get_choices. by rewrite H. Qed.

Lemma get_choices_from_split (ctx : Ctx) (args all_args : list string)
    (incomplete incomplete' : string) :
  split_incomplete args incomplete = (all_args, incomplete') →
  get_choices_from ctx args incomplete =
  choices_for ctx (bool_decide ("--" ∈ args)) all_args incomplete'.
Proof. intros H. unfold_get_choices. by rewrite H. Qed.

(** C7: the value candidates of a parameter.  For a choice type they are
    the choices whose string form starts with [incomplete], in the order
    declared, without description; otherwise the dynamic callback, if there
    is one, is called with the context, the arguments and [incomplete], and
    its bare values get no description while its tuples are kept; otherwise
    there are no candidates. *)
Theorem get_user_autocompletions_cases (ctx : Ctx) (args : list string)
    (incomplete : string) (cmd_param : Param) :
  (∀ choices, type (attrs cmd_param) = Choice choices →
     ∃ candidates,
       get_user_autocompletions ctx args incomplete cmd_param = Ok candidates ∧
       candidates.*1 =
         filter (λ c, startswith (py_str c) incomplete = true) choices ∧
       Forall (λ c, c.2 = None) candidates) ∧
  (∀ f items, type (attrs cmd_param) = OtherType →
     autocompletion (attrs cmd_param) = Some f →
     autocompletion_call f ctx args incomplete = Ok items →
     ∃ candidates,
       get_user_autocompletions ctx args incomplete cmd_param = Ok candidates ∧
       Forall2 (λ item c,
                  match item with
                  | Bare v => c = (v, None)
                  | Tuple v descr => c = (v, descr)
                  end) items candidates) ∧
  (∀ f e, type (attrs cmd_param) = OtherType →
     autocompletion (attrs cmd_param) = Some f →
     autocompletion_call f ctx args incomplete = Raise e →
     get_user_autocompletions ctx args incomplete cmd_param = Raise e) ∧
  (type (attrs cmd_param) = OtherType →
     autocompletion (attrs cmd_param) = None →
     get_user_autocompletions ctx args incomplete cmd_param = Ok []).
Proof.
  unfold_autocompletions. repeat split.
  - intros choices ->. eexists. split; [done|]. split.
    + rewrite <-list_fmap_compose. simpl.
      rewrite list_fmap_id.
      apply list_filter_iff. intros c. by rewrite Is_true_true.
    + apply Forall_fmap, Forall_true. done.
  - intros f items -> -> ->. simpl. eexists. split; [done|].
    apply Forall2_fmap_r, Forall_Forall2_diag, Forall_true.
    by intros [v|v descr].
  - by intros f e -> -> ->.
  - by intros -> ->.
Qed.


(** ** Classification *)

Lemma first_incomplete_option_found (all_args : list string)
    (pre post : list Param) (param : Param) :
  Forall (λ q, is_incomplete_option all_args q = false) pre →
  is_incomplete_option all_args param = true →
  first_incomplete_option all_args (pre ++ param :: post) = Some param.
Proof.
  intros Hpre Hparam. induction Hpre as [|q pre Hq _ IH]; simpl.
  - by rewrite Hparam.
  - by rewrite Hq.
Qed.

Lemma first_incomplete_option_none (all_args : list string) (ps : list Param) :
  Forall (λ q, is_incomplete_option all_args q = false) ps →
  first_incomplete_option all_args ps = None.
Proof. induction 1 as [|q ps Hq _ IH]; simpl; [done|by rewrite Hq]. Qed.

Lemma first_incomplete_argument_found (current_params : gmap string pyval)
    (pre post : list Param) (param : Param) :
  Forall (λ q, is_incomplete_argument current_params q = Ok false) pre →
  is_incomplete_argument current_params param = Ok true →
  first_incomplete_argument current_params (pre ++ param :: post) =
  Ok (Some param).
Proof.
  intros Hpre Hparam. induction Hpre as [|q pre Hq _ IH]; simpl.
  - by rewrite Hparam.
  - by rewrite Hq.
Qed.

Lemma first_incomplete_argument_none (current_params : gmap string pyval)
    (ps : list Param) :
  Forall (λ q, is_incomplete_argument current_params q = Ok false) ps →
  first_incomplete_argument current_params ps = Ok None.
Proof. induction 1 as [|q ps Hq _ IH]; simpl; [done|by rewrite Hq]. Qed.

Lemma not_option_names (has_double_dash : bool) (incomplete : string) :
  ¬ (has_double_dash = false ∧ start_of_option incomplete = true) →
  negb has_double_dash && start_of_option incomplete = false.
Proof. destruct has_double_dash, (start_of_option incomplete); naive_solver. Qed.

Lemma choices_for_classified (ctx : Ctx) (has_double_dash : bool)
    (all_args : list string) (incomplete : string) (k : classification) :
  classifies ctx has_double_dash all_args incomplete k →
  choices_for ctx has_double_dash all_args incomplete =
  candidates_of ctx all_args incomplete k.
Proof.
  unfold_choices_for.
  destruct 1 as [Hdd Hstart|pre param post Hnot Hps Hpre Hparam
                |pre param post Hnot Hopts Hps Hpre Hparam|Hnot Hopts Hargs].
  - rewrite Hdd, Hstart. simpl. by rewrite complete_option_names_spec.
  - rewrite (not_option_names _ _ Hnot), Hps.
    by rewrite (first_incomplete_option_found _ _ _ _ Hpre Hparam).
  - rewrite (not_option_names _ _ Hnot), (first_incomplete_option_none _ _ Hopts).
    rewrite Hps. by rewrite (first_incomplete_argument_found _ _ _ _ Hpre Hparam).
  - rewrite (not_option_names _ _ Hnot), (first_incomplete_option_none _ _ Hopts).
    by rewrite (first_incomplete_argument_none _ _ Hargs).
Qed.

Lemma resolve_partial_value_classified (ctx : Ctx)
    (args all_args : list string) (incomplete incomplete' : string)
    (k : classification) :
  split_incomplete args incomplete = (all_args, incomplete') →
  classifies ctx (bool_decide ("--" ∈ args)) all_args incomplete' k →
  resolve_partial_value ctx args incomplete =
  Ok (handler ctx k, incomplete', all_args).
Proof.
  intros Hsplit. unfold resolve_partial_value. rewrite Hsplit.
  destruct 1 as [Hdd Hstart|pre param post Hnot Hps Hpre Hparam
                |pre param post Hnot Hopts Hps Hpre Hparam|Hnot Hopts Hargs].
  - by rewrite Hdd, Hstart.
  - rewrite (not_option_names _ _ Hnot), Hps.
    by rewrite (first_incomplete_option_found _ _ _ _ Hpre Hparam).
  - rewrite (not_option_names _ _ Hnot), (first_incomplete_option_none _ _ Hopts).
    rewrite Hps. by rewrite (first_incomplete_argument_found _ _ _ _ Hpre Hparam).
  - rewrite (not_option_names _ _ Hnot), (first_incomplete_option_none _ _ Hopts).
    by rewrite (first_incomplete_argument_none _ _ Hargs).
Qed.

Lemma first_true_split {A} (f : A → bool) (l : list A) :
  Forall (λ x, f x = false) l ∨
  ∃ pre x post, l = pre ++ x :: post ∧ Forall (λ y, f y = false) pre ∧
                f x = true.
Proof.
  induction l as [|x l [IH|(pre & y & post & -> & Hpre & Hy)]].
  - by left.
  - destruct (f x) eqn:Hx.
    + right. by exists [], x, l.
    + left. by constructor.
  - destruct (f x) eqn:Hx.
    + right. by exists [], x, (pre ++ y :: post).
    + right. exists (x :: pre), y, post. split; [done|].
      split; [by constructor|done].
Qed.

(** Every request has a classification, unless the value of an argument is
    missing from [ctx.params] (the code then raises [KeyError]). *)
Lemma classifies_total (ctx : Ctx) (has_double_dash : bool)
    (all_args : list string) (incomplete : string) :
  Forall (λ q, ∃ b, is_incomplete_argument (params ctx) q = Ok b)
    (get_params (command ctx)) →
  ∃ k, classifies ctx has_double_dash all_args incomplete k.
Proof.
  intros Hparams.
  destruct (decide (has_double_dash = false ∧
                    start_of_option incomplete = true)) as [[Hdd Hstart]|Hnot].
  { exists OptionNames. by constructor. }
  destruct (first_true_split (is_incomplete_option all_args)
              (get_params (command ctx)))
    as [Hopts|(pre & param & post & Hps & Hpre & Hparam)].
  2: { exists (OptionValue param). by econstructor. }
  set (awaits q := match is_incomplete_argument (params ctx) q with
                   | Ok b => b
                   | Raise _ => false
                   end).
  assert (Hawaits : ∀ q b, q ∈ get_params (command ctx) →
                           awaits q = b →
                           is_incomplete_argument (params ctx) q = Ok b).
  { intros q b Hq <-. rewrite Forall_forall in Hparams.
    destruct (Hparams q Hq) as [b Hb]. unfold awaits. by rewrite Hb. }
  destruct (first_true_split awaits (get_params (command ctx)))
    as [Hargs|(pre & param & post & Hps & Hpre & Hparam)].
  - exists SubcommandNames. constructor; [done..|].
    apply Forall_forall. intros q Hq. apply Hawaits; [done|].
    by rewrite Forall_forall in Hargs; apply Hargs.
  - exists (ArgumentValue param).
    apply (classifies_argument_value _ _ _ _ pre param post); [done..| |].
    + apply Forall_forall. intros q Hq. apply Hawaits.
      * rewrite Hps. apply elem_of_app. by left.
      * by rewrite Forall_forall in Hpre; apply Hpre.
    + apply Hawaits; [|done]. rewrite Hps. apply elem_of_app. right.
      by apply elem_of_cons; left.
Qed.

(** C3: the classification follows the priority order, and each case
    returns at once: option names when [--] is not among the arguments and
    [incomplete] starts an option; else the values of the first option in
    declaration order that awaits a value; else the values of the first
    argument in declaration order that awaits a value; else subcommand
    names.  [resolve_partial_value] picks the handler in the same order.
    In particular the choices of an open choice argument are returned
    rather than subcommand names. *)
Theorem classification_priority (fuel : nat) (cli : Command)
    (prog_name : string) (args all_args : list string)
    (incomplete incomplete' : string) (ctx : Ctx) (k : classification) :
  resolve_ctx fuel cli prog_name args = Some ctx →
  split_incomplete args incomplete = (all_args, incomplete') →
  classifies ctx (bool_decide ("--" ∈ args)) all_args incomplete' k →
  get_choices fuel cli prog_name args incomplete =
    Some (candidates_of ctx all_args incomplete' k) ∧
  resolve_partial_value ctx args incomplete =
    Ok (handler ctx k, incomplete', all_args) ∧
  (∀ a choices, k = ArgumentValue (Argument a) → type a = Choice choices →
     get_choices fuel cli prog_name args incomplete =
     Some (Ok ((λ c, (c, None)) <$>
                 filter (λ c, startswith (py_str c) incomplete') choices))).
Proof.
  intros Hctx Hsplit Hk.
  rewrite (get_choices_resolved _ _ _ _ _ _ Hctx).
  rewrite (get_choices_from_split _ _ _ _ _ Hsplit).
  rewrite (choices_for_classified _ _ _ _ _ Hk).
  split; [done|]. split; [by apply resolve_partial_value_classified|].
  intros a choices -> Htype. simpl.
  unfold_autocompletions. simpl. by rewrite Htype.
Qed.

(** C4: when [--] is not among the arguments and [incomplete] starts an
    option, the candidates are, for the parameters in declaration order,
    the spellings [opts + secondary_opts] of each option that is not hidden
    which start with [incomplete] and either do not occur in the arguments
    or belong to an option declared [multiple]; each carries the help of
    its option.  Hidden options and other parameters add nothing. *)
Theorem option_name_candidates (fuel : nat) (cli : Command)
    (prog_name : string) (args all_args : list string)
    (incomplete incomplete' : string) (ctx : Ctx) :
  resolve_ctx fuel cli prog_name args = Some ctx →
  split_incomplete args incomplete = (all_args, incomplete') →
  "--" ∉ args → start_of_option incomplete' = true →
  ∃ candidates,
    get_choices fuel cli prog_name args incomplete = Some (Ok candidates) ∧
    candidates =
      get_params (command ctx) ≫= offered_spellings all_args incomplete' ∧
    (∀ s h, (VStr s, h) ∈ candidates ↔
       ∃ p o, Option p o ∈ get_params (command ctx) ∧ hidden o = false ∧
              s ∈ opts p ++ secondary_opts p ∧
              startswith s incomplete' = true ∧
              (s ∉ all_args ∨ multiple o = true) ∧ h = help o) ∧
    (∀ p o, hidden o = true →
       offered_spellings all_args incomplete' (Option p o) = []).
Proof.
  intros Hctx Hsplit Hdd Hstart. eexists. split; [|split; [done|split]].
  - rewrite (get_choices_resolved _ _ _ _ _ _ Hctx).
    rewrite (get_choices_from_split _ _ _ _ _ Hsplit).
    rewrite (choices_for_classified _ _ _ _ OptionNames); [done|].
    constructor; [|done]. by apply bool_decide_eq_false.
  - intros s h. apply elem_of_offered_spellings.
  - intros p o Hhidden. simpl. by rewrite Hhidden.
Qed.

(** C10: a spelling that occurs in the arguments removes only itself from
    the option names.  For an option that is not declared [multiple] and
    has the spelling [s'] among the arguments, any other spelling [s] of
    the option that starts with [incomplete] and is not among the arguments
    is still a candidate. *)
Theorem other_spellings_still_offered (fuel : nat) (cli : Command)
    (prog_name : string) (args all_args : list string)
    (incomplete incomplete' : string) (ctx : Ctx)
    (p : ParameterAttrs) (o : OptionAttrs) (s s' : string) :
  resolve_ctx fuel cli prog_name args = Some ctx →
  split_incomplete args incomplete = (all_args, incomplete') →
  "--" ∉ args → start_of_option incomplete' = true →
  Option p o ∈ get_params (command ctx) → hidden o = false →
  multiple o = false →
  s' ∈ opts p ++ secondary_opts p → s' ∈ all_args →
  s ∈ opts p ++ secondary_opts p → s ∉ all_args →
  startswith s incomplete' = true →
  ∃ candidates,
    get_choices fuel cli prog_name args incomplete = Some (Ok candidates) ∧
    (VStr s, help o) ∈ candidates ∧
    (VStr s, help o) ∈ offered_spellings all_args incomplete' (Option p o) ∧
    (∀ h, (VStr s', h) ∉ offered_spellings all_args incomplete' (Option p o)).
Proof.
  intros Hctx Hsplit Hdd Hstart Hp Hhidden Hmult Hs' Hin' Hs Hin Hprefix.
  eexists. split; [|split; [|split]].
  - rewrite (get_choices_resolved _ _ _ _ _ _ Hctx).
    rewrite (get_choices_from_split _ _ _ _ _ Hsplit).
    rewrite (choices_for_classified _ _ _ _ OptionNames); [done|].
    constructor; [|done]. by apply bool_decide_eq_false.
  - apply elem_of_offered_spellings. exists p, o. naive_solver.
  - apply elem_of_offered_spellings_option. naive_solver.
  - intros h (_ & _ & _ & Hfree & _)%elem_of_offered_spellings_option.
    destruct Hfree as [?|?]; [done|congruence].
Qed.

Lemma split_incomplete_wordbreak (args : list string) (before after : string) :
  start_of_option (before +:+ WORDBREAK +:+ after) = true →
  str_in WORDBREAK before = false →
  split_incomplete args (before +:+ WORDBREAK +:+ after) =
  (args ++ [before], after).
Proof.
  intros Hstart Hbefore. unfold split_incomplete. rewrite Hstart.
  change (WORDBREAK +:+ after) with (String "=" after) in *.
  unfold WORDBREAK in *. rewrite str_in_append_char. simpl.
  by rewrite partition_first.
Qed.

(** With the context fixed, completing [before=after] is completing
    [after] with [before] appended to the arguments, as long as [before]
    does not bring the sentinel [--] in and [after] needs no splitting of
    its own. *)
Lemma get_choices_from_appended (ctx : Ctx) (args : list string)
    (before after : string) :
  start_of_option (before +:+ WORDBREAK +:+ after) = true →
  str_in WORDBREAK before = false →
  "--" ∈ args ∨ before ≠ "--" →
  split_incomplete (args ++ [before]) after = (args ++ [before], after) →
  get_choices_from ctx args (before +:+ WORDBREAK +:+ after) =
  get_choices_from ctx (args ++ [before]) after.
Proof.
  intros Hstart Hbefore Hsentinel Hafter.
  rewrite (get_choices_from_split _ _ _ _ _
             (split_incomplete_wordbreak args before after Hstart Hbefore)).
  rewrite (get_choices_from_split _ _ _ _ _ Hafter). f_equal.
  apply bool_decide_ext. rewrite elem_of_app, list_elem_of_singleton.
  naive_solver.
Qed.

(** C6 (as amended): an [incomplete] that starts an option and contains
    [=] is split at its first [=], and the candidates are computed with the
    part before it appended to the arguments and the part after it as the
    new [incomplete]; the context and the test for [--] stay those of the
    arguments as given, and the part after the [=] is not split again.  So
    the request behaves as the one with the part appended whenever that one
    resolves to the same context, the part before does not bring [--] in,
    and the part after needs no splitting of its own.  An [incomplete] that
    is exactly [=] is completed as the empty string.  In particular
    [--opt1=op], for an option [--opt1] with the choices [opt11] and
    [opt12], gives the choices that start with [op]. *)
Theorem wordbreak_split (fuel : nat) (cli : Command) (prog_name : string)
    (args : list string) (incomplete : string) (ctx : Ctx) :
  resolve_ctx fuel cli prog_name args = Some ctx →
  (start_of_option incomplete = true → str_in WORDBREAK incomplete = true →
     ∃ before after,
       incomplete = before +:+ WORDBREAK +:+ after ∧
       str_in WORDBREAK before = false ∧
       split_incomplete args incomplete = (args ++ [before], after) ∧
       get_choices fuel cli prog_name args incomplete =
       Some (choices_for ctx (bool_decide ("--" ∈ args))
               (args ++ [before]) after) ∧
       ("--" ∈ args ∨ before ≠ "--" →
        split_incomplete (args ++ [before]) after = (args ++ [before], after) →
        resolve_ctx fuel cli prog_name (args ++ [before]) = Some ctx →
        get_choices fuel cli prog_name args incomplete =
        get_choices fuel cli prog_name (args ++ [before]) after)) ∧
  (incomplete = WORDBREAK →
     get_choices fuel cli prog_name args incomplete =
     Some (choices_for ctx (bool_decide ("--" ∈ args)) args "") ∧
     get_choices fuel cli prog_name args incomplete =
     get_choices fuel cli prog_name args "") ∧
  (∀ p o, args = [] → incomplete = "--opt1=op" →
     get_params (command ctx) = [Option p o] →
     opts p = ["--opt1"] → nargs p = 1%Z → is_flag o = false →
     type p = Choice [VStr "opt11"; VStr "opt12"] →
     get_choices fuel cli prog_name args incomplete =
     Some (Ok [(VStr "opt11", None); (VStr "opt12", None)])).
Proof.
  intros Hctx. split; [|split].
  - intros Hstart Hin.
    destruct (str_in_split "=" incomplete Hin) as (before & after & -> & Hb).
    exists before, after.
    pose proof (split_incomplete_wordbreak args before after Hstart Hb) as Hsplit.
    split; [done|]. split; [done|]. split; [done|]. split.
    + rewrite (get_choices_resolved _ _ _ _ _ _ Hctx).
      by rewrite (get_choices_from_split _ _ _ _ _ Hsplit).
    + intros Hsentinel Hafter Hctx'.
      rewrite (get_choices_resolved _ _ _ _ _ _ Hctx).
      rewrite (get_choices_resolved _ _ _ _ _ _ Hctx').
      f_equal. by apply get_choices_from_appended.
  - intros ->. rewrite !(get_choices_resolved _ _ _ _ _ _ Hctx).
    by rewrite (get_choices_from_split _ _ args "=" ""),
      (get_choices_from_split _ _ args "" "").
  - rewrite (get_choices_resolved _ _ _ _ _ _ Hctx).
    intros [n op sop na ty ac] [fl mu hi he] -> -> Hps; simpl.
    intros -> -> -> ->.
    unfold_get_choices. unfold_choices_for. simpl.
    rewrite Hps. done.
Qed.

(** ** Subcommand names *)


End EngineFacts.

Lemma elem_of_chained_offer (a : Ctx) (incomplete : string)
    (x : string * string) :
  x ∈ chained_offer a incomplete ↔
  is_chained (command a) = true ∧
  ∃ c, c ∈ visible_children (command a) incomplete ∧
       (cmd_name c ∉ protected_args a) ∧ x = name_and_help c.
Proof.
  unfold chained_offer. destruct (is_chained (command a)).
  - rewrite list_elem_of_fmap. setoid_rewrite list_elem_of_filter.
    naive_solver.
  - split; [by inversion 1|by intros [? _]].
Qed.

(** What [add_subcommand_completions] returns when every listed name
    resolves: walking up from the innermost context, every ancestor whose
    command is a chained multi command adds its visible children listed
    under a name that starts with [incomplete], except those whose own name
    is among the protected arguments of that ancestor; nothing else is left
    out, so the siblings of the resolved children stay on offer. *)
Lemma chained_ancestors_offer (ctx : Ctx) (incomplete : string) :
  well_listed ctx →
  ∃ names,
    add_subcommand_completions ctx incomplete [] = Ok names ∧
    names =
      (name_and_help <$> visible_children (command ctx) incomplete) ++
      (ancestors ctx ≫= (λ a, chained_offer a incomplete)) ∧
    (∀ a c, a ∈ ancestors ctx → is_chained (command a) = true →
       c ∈ visible_children (command a) incomplete →
       cmd_name c ∉ protected_args a → name_and_help c ∈ names) ∧
    (∀ a x, x ∈ chained_offer a incomplete ↔
       is_chained (command a) = true ∧
       ∃ c, c ∈ visible_children (command a) incomplete ∧
            (cmd_name c ∉ protected_args a) ∧ x = name_and_help c) ∧
    (∀ x, x ∈ names →
       x ∈ name_and_help <$> visible_children (command ctx) incomplete ∨
       ∃ a, a ∈ ancestors ctx ∧ x ∈ chained_offer a incomplete).
Proof.
  intros Hlisted. eexists. split; [|split; [done|split; [|split]]].
  - by rewrite add_subcommand_completions_listed.
  - intros a c Ha Hchain Hc Hfree. apply elem_of_app. right.
    apply list_elem_of_bind. exists a. split; [|done].
    apply elem_of_chained_offer. eauto.
  - intros a x. apply elem_of_chained_offer.
  - intros x [Hx|Hx]%elem_of_app; [by left|right].
    apply list_elem_of_bind in Hx as (a & Hx & Ha). eauto.
Qed.

(** ** Shell adapters *)

(** The function name of the script for the program [foo-bar baz_blah]. *)
Example cf_name_example :
  remove_invalid_ident_chars (replace_dash "foo-bar baz_blah") =
  "foo_barbaz_blah".
Proof. reflexivity. Qed.

Lemma directly_extends_extends (cls K : PyClass) :
  directly_extends cls K = true → extends cls K = true.
Proof.
  unfold directly_extends, extends, __base__.
  destruct cls as [n [|base bases]]; simpl; [done|].
  intros Hbase. destruct base as [bn bbases]. simpl in *.
  by rewrite Hbase.
Qed.

(** What [add_completion_class] does: it raises, and leaves the dictionary
    of shells as it was, exactly when the first base of the class
    ([__base__]) is not [ShellComplete]; this is the case for every class
    that does not extend [ShellComplete].  Otherwise the class is stored
    under the name, whether the name was in the dictionary or not, and the
    other names keep their classes. *)
Lemma add_completion_class_checks_base (name : string)
    (completion_class : CompletionClass)
    (available_shells : gmap string CompletionClass) :
  (directly_extends (py_class completion_class) ShellComplete_class = false ↔
   ∃ e, add_completion_class name completion_class available_shells =
        (Raise e, available_shells)) ∧
  (directly_extends (py_class completion_class) ShellComplete_class = true ↔
   add_completion_class name completion_class available_shells =
   (Ok (), <[name := completion_class]> available_shells)) ∧
  (extends (py_class completion_class) ShellComplete_class = false →
   ∃ e, add_completion_class name completion_class available_shells =
        (Raise e, available_shells)) ∧
  (<[name := completion_class]> available_shells !! name =
     Some completion_class) ∧
  (∀ other, other ≠ name →
     <[name := completion_class]> available_shells !! other =
     available_shells !! other).
Proof.
  assert (Hcases :
    add_completion_class name completion_class available_shells =
    if directly_extends (py_class completion_class) ShellComplete_class
    then (Ok (), <[name := completion_class]> available_shells)
    else (Raise (Exception "Completion class must extend `ShellComplete`"),
          available_shells)).
  { unfold add_completion_class, directly_extends.
    destruct (__base__ _) as [base|]; [|done].
    by destruct (class_eqb base ShellComplete_class). }
  rewrite Hcases. repeat split.
  - intros ->. eauto.
  - destruct (directly_extends _ _); [|done]. by intros [e [=]].
  - by intros ->.
  - by destruct (directly_extends _ _).
  - intros Hext. destruct (directly_extends _ _) eqn:Hd; [|eauto].
    apply directly_extends_extends in Hd. congruence.
  - apply lookup_insert_eq.
  - intros other Hother. by apply lookup_insert_ne.
Qed.

Section ShellFacts.

Variable format : string → list (string * string) → string.
Variable strip : string → string.

Ltac unfold_shell_complete := unfold shell_complete.

Local Abbreviation get_completion_script := (get_completion_script format strip).
Local Abbreviation shell_complete := (shell_complete format strip).

Lemma split_instruction_spec (complete_instr : string) :
  ∃ command shell,
    split_instruction complete_instr = Ok (command, shell) ∧
    if str_in "_" complete_instr
    then complete_instr = command +:+ "_" +:+ shell ∧
         str_in "_" command = false
    else command = complete_instr ∧ shell = "bash".
Proof.
  unfold split_instruction, split_once.
  destruct (str_in "_" complete_instr) eqn:Hin; [|by eexists _, _].
  destruct (str_in_split "_" complete_instr Hin) as (before & after & -> & Hb).
  exists before, after. by rewrite partition_first.
Qed.

(** C9: [shell_complete] splits the instruction at its first underscore
    into the command and the shell, and takes the shell [bash] when there is
    no underscore.  When the command is [source] and the script is built, it
    prints the script and returns [True]; when the command is neither
    [source] nor [complete] it returns [False] and prints nothing. *)
Theorem shell_complete_dispatch
    (available_shells : gmap string CompletionClass) (cli : Command)
    (prog_name complete_var complete_instr : string) (stdout : list string) :
  ∃ command shell,
    split_instruction complete_instr = Ok (command, shell) ∧
    (if str_in "_" complete_instr
     then complete_instr = command +:+ "_" +:+ shell ∧
          str_in "_" command = false
     else command = complete_instr ∧ shell = "bash") ∧
    (command = "source" →
       ∀ script,
         get_completion_script available_shells cli prog_name complete_var
           shell = Ok script →
         shell_complete available_shells cli prog_name complete_var
           complete_instr stdout = (Ok true, stdout ++ [script])) ∧
    (command = "complete" →
       shell_complete available_shells cli prog_name complete_var
         complete_instr stdout =
       complete (get_completion_source available_shells shell)
         {| self_prog_name := prog_name; self_complete_var := complete_var;
            self_cli := cli |} stdout) ∧
    (command ≠ "source" → command ≠ "complete" →
       shell_complete available_shells cli prog_name complete_var
         complete_instr stdout = (Ok false, stdout)).
Proof.
  destruct (split_instruction_spec complete_instr)
    as (command & shell & Hsplit & Hparts).
  exists command, shell. unfold_shell_complete. rewrite Hsplit.
  repeat split; try done.
  - intros -> script Hscript. simpl. by rewrite Hscript.
  - by intros ->.
  - intros Hsource%String.eqb_neq Hcomplete%String.eqb_neq.
    by rewrite Hsource, Hcomplete.
Qed.

End ShellFacts.

(** * The statements on the examples *)

Local Abbreviation example_get_choices :=
  (get_choices example_callbacks example_make_context example_resolve_command).
Local Abbreviation example_resolve_ctx :=
  (resolve_ctx example_make_context example_resolve_command).

(** After [--pos --name] the option [--pos], which takes two values, is
    reported as awaiting a value: [--pos] is the first flag among the last
    two tokens. *)
Lemma is_incomplete_option_first_flag_example :
  is_incomplete_option ["--pos"; "--name"] pos_option = true ∧
  head (flags_in_window 2 ["--pos"; "--name"]) = Some "--pos".
Proof.
  split; [|reflexivity].
  apply (proj1 is_incomplete_option_first_flag_in_window
           {| name := "pos"; opts := ["--pos"]; secondary_opts := [];
              nargs := 2; type := OtherType; autocompletion := None |}
           {| is_flag := false; multiple := false; hidden := false;
              help := None |}
           ["--pos"; "--name"] eq_refl).
  exists "--pos". split; [reflexivity|]. apply list_elem_of_singleton.
  reflexivity.
Qed.

(** C1 is not met by the code.  After the flag [--verbose] and the option
    [--pos], which takes two values, the nearest token that starts an
    option among the last two is [--pos], a spelling of the option, and the
    option has no value yet; [is_incomplete_option] answers [False], because
    the scan goes on to [--verbose] and keeps that.  One value later it
    answers [True]. *)
Theorem is_incomplete_option_flag_before_option :
  last (flags_in_window 2 ["--verbose"; "--pos"]) = Some "--pos" ∧
  "--pos" ∈ opts (attrs pos_option) ∧
  head (flags_in_window 2 ["--verbose"; "--pos"]) = Some "--verbose" ∧
  is_incomplete_option ["--verbose"; "--pos"] pos_option = false ∧
  is_incomplete_option ["--verbose"; "--pos"; "pos1"] pos_option = true.
Proof.
  split; [reflexivity|]. split; [by apply list_elem_of_singleton|].
  split; [reflexivity|]. split; reflexivity.
Qed.

Lemma asub_ctx_well_listed : well_listed asub_ctx.
Proof.
  repeat constructor.
  - intros m [=].
  - intros m [= <-]. repeat constructor; by eexists.
Defined.


Lemma lookup_command_named (commands : list (string * Command))
    (k : string) (c : Command) :
  Forall (λ kc, cmd_name kc.2 = kc.1) commands →
  lookup_command commands k = Some c → cmd_name c = k.
Proof.
  induction 1 as [|[k' c'] commands Hname _ IH]; simpl; [done|].
  destruct (String.eqb_spec k' k) as [<-|_]; [|done].
  by intros [= <-].
Qed.

Lemma asub_ctx_named_as_listed : named_as_listed asub_ctx.
Proof.
  repeat constructor.
  - intros m k c [=].
  - intros m k c Hm Hc.
    apply (lookup_command_named
             [("asub", example_command "asub" "" []);
              ("bsub", example_command "bsub" "bsub help" []);
              ("csub", example_command "csub" "" [])] k c);
      [by repeat constructor|].
    injection Hm as <-. exact Hc.
Qed.


(** The group of the next example lists every child under its own name,
    and every listed name resolves. *)
Lemma nested_sub_ctx_listed_by_name :
  well_listed nested_sub_ctx ∧ named_as_listed nested_sub_ctx.
Proof.
  split.
  - repeat constructor; intros m [= <-]; repeat constructor; by eexists.
  - repeat constructor; intros m k c Hm Hc; injection Hm as <-.
    + by apply (lookup_command_named [("x", x_command)] k c);
        [repeat constructor|].
    + by apply (lookup_command_named
                  [("sub", example_group "sub" false [] [("x", x_command)]);
                   ("x", x_command)] k c); [repeat constructor|].
Qed.


(** On the group with the choice argument, [cli <TAB>] gives the choices of
    the argument and not the subcommands. *)
Lemma classification_priority_witness :
  example_resolve_ctx 3 arg_cli "cli" [] = Some arg_ctx ∧
  example_get_choices 3 arg_cli "cli" [] "" =
    Some (Ok [(VStr "cliarg1", None); (VStr "cliarg2", None)]) ∧
  resolve_partial_value arg_ctx [] "" =
    Ok (OfParam (example_argument "arg"
                   (Choice [VStr "cliarg1"; VStr "cliarg2"]) None), "", []).
Proof.
  split; [reflexivity|].
  destruct (classification_priority example_callbacks example_make_context
              example_resolve_command 3 arg_cli "cli" [] [] "" "" arg_ctx
              (ArgumentValue (example_argument "arg"
                 (Choice [VStr "cliarg1"; VStr "cliarg2"]) None)))
    as (Hchoices & Hhandler & _).
  - reflexivity.
  - reflexivity.
  - apply (classifies_argument_value _ _ _ _
             [example_option "cli_opt" ["--cli-opt"] 1 OtherType false None]
             _ []).
    + intros [_ [=]].
    + repeat constructor.
    + reflexivity.
    + repeat constructor.
    + reflexivity.
  - split; [exact Hchoices|exact Hhandler].
Defined.

(** After [cli --foo], completing [-] offers the other spelling [-f]. *)
Lemma option_name_candidates_witness :
  ∃ candidates,
    example_get_choices 3 foo_cli "cli" ["--foo"] "-" = Some (Ok candidates) ∧
    candidates =
      get_params (command foo_ctx) ≫= offered_spellings ["--foo"] "-" ∧
    (∀ s h, (VStr s, h) ∈ candidates ↔
       ∃ p o, Option p o ∈ get_params (command foo_ctx) ∧ hidden o = false ∧
              s ∈ opts p ++ secondary_opts p ∧
              startswith s "-" = true ∧
              (s ∉ ["--foo"] ∨ multiple o = true) ∧ h = help o) ∧
    (∀ p o, hidden o = true →
       offered_spellings ["--foo"] "-" (Option p o) = []).
Proof.
  apply (option_name_candidates example_callbacks example_make_context
           example_resolve_command 3 foo_cli "cli" ["--foo"] ["--foo"]
           "-" "-" foo_ctx).
  - reflexivity.
  - reflexivity.
  - intros Hin. apply list_elem_of_singleton in Hin. discriminate Hin.
  - reflexivity.
Defined.

Lemma other_spellings_still_offered_witness :
  ∃ candidates,
    example_get_choices 3 foo_cli "cli" ["--foo"] "-" = Some (Ok candidates) ∧
    (VStr "-f", Some "foo help") ∈ candidates.
Proof.
  destruct (other_spellings_still_offered example_callbacks
              example_make_context example_resolve_command 3 foo_cli "cli"
              ["--foo"] ["--foo"] "-" "-" foo_ctx
              {| name := "foo"; opts := ["--foo"; "-f"]; secondary_opts := [];
                 nargs := 1; type := OtherType; autocompletion := None |}
              {| is_flag := true; multiple := false; hidden := false;
                 help := Some "foo help" |}
              "-f" "--foo")
    as (candidates & Hchoices & Hin & _).
  - reflexivity.
  - reflexivity.
  - intros Hin. apply list_elem_of_singleton in Hin. discriminate Hin.
  - reflexivity.
  - apply list_elem_of_singleton. reflexivity.
  - reflexivity.
  - reflexivity.
  - apply elem_of_cons. left. reflexivity.
  - apply list_elem_of_singleton. reflexivity.
  - apply elem_of_cons. right. apply list_elem_of_singleton. reflexivity.
  - intros Hin. apply list_elem_of_singleton in Hin. discriminate Hin.
  - reflexivity.
  - exists candidates. split; [exact Hchoices|exact Hin].
Defined.

(** After [cli asub] the chained parent adds [bsub] and [csub]; [asub] is
    among its protected arguments and is left out. *)
Lemma chained_ancestors_offer_example :
  add_subcommand_completions asub_ctx "" [] =
    Ok [("bsub", "bsub help"); ("csub", "")].
Proof.
  destruct (chained_ancestors_offer asub_ctx "" asub_ctx_well_listed)
    as (names & Hnames & -> & _).
  exact Hnames.
Qed.

(** C5 is not met by the code.  On the chained group whose child [real] is
    registered under the name [alias], after the sibling [bsub] has been
    resolved, the chained ancestor has the visible child [real], whose name
    starts with [r] and is not among the protected arguments, so [real] is
    due for [r] and not for [a]; the code offers nothing for [r], and for
    [a] it offers [real].  It tests the prefix on the name under which the
    child is listed and then offers, and tests against the protected
    arguments, the name of the command. *)
Theorem chained_offer_tests_listed_name :
  example_resolve_ctx 3 alias_cli "cli" ["bsub"] = Some alias_bsub_ctx ∧
  ancestors alias_bsub_ctx = [alias_root_ctx] ∧
  is_chained (command alias_root_ctx) = true ∧
  protected_args alias_root_ctx = ["bsub"] ∧
  (∃ m, multi (command alias_root_ctx) = Some m ∧
        list_commands m = ["alias"; "bsub"] ∧
        get_command m "alias" = Some real_command) ∧
  cmd_hidden real_command = false ∧ cmd_name real_command = "real" ∧
  named_offer alias_bsub_ctx "r" = [("real", "real help")] ∧
  add_subcommand_completions alias_bsub_ctx "r" [] = Ok [] ∧
  example_get_choices 3 alias_cli "cli" ["bsub"] "r" = Some (Ok []) ∧
  named_offer alias_bsub_ctx "a" = [] ∧
  add_subcommand_completions alias_bsub_ctx "a" [] =
    Ok [("real", "real help")] ∧
  example_get_choices 3 alias_cli "cli" ["bsub"] "a" =
    Some (Ok [(VStr "real", Some "real help")]).
Proof.
  split; [reflexivity|]. split; [reflexivity|]. split; [reflexivity|].
  split; [reflexivity|]. split.
  { eexists. split; [reflexivity|]. split; reflexivity. }
  repeat split; reflexivity.
Qed.

(** [--opt1=op] is completed as [op] after [--opt1]: it gives the choices
    that start with [op], and with a parser that consumes the options it is
    the request [--opt1] followed by [op]. *)
Lemma wordbreak_split_witness :
  example_get_choices 3 opt1_cli "cli" [] "--opt1=op" =
    Some (Ok [(VStr "opt11", None); (VStr "opt12", None)]) ∧
  get_choices example_callbacks option_consuming_make_context
    example_resolve_command 3 opt1_cli "cli" [] "--opt1=op" =
  get_choices example_callbacks option_consuming_make_context
    example_resolve_command 3 opt1_cli "cli" ([] ++ ["--opt1"]) "op".
Proof.
  split.
  - destruct (wordbreak_split example_callbacks example_make_context
                example_resolve_command 3 opt1_cli "cli" [] "--opt1=op"
                opt1_ctx eq_refl) as (_ & _ & Hexample).
    apply (Hexample
             {| name := "opt1"; opts := ["--opt1"]; secondary_opts := [];
                nargs := 1; type := Choice [VStr "opt11"; VStr "opt12"];
                autocompletion := None |}
             {| is_flag := false; multiple := false; hidden := false;
                help := None |}); reflexivity.
  - destruct (wordbreak_split example_callbacks option_consuming_make_context
                example_resolve_command 3 opt1_cli "cli" [] "--opt1=op"
                opt1_ctx eq_refl) as (Hsplit & _ & _).
    destruct (Hsplit eq_refl eq_refl)
      as (before & after & _ & _ & Hparts & _ & Happended).
    assert (before = "--opt1" ∧ after = "op") as [-> ->].
    { vm_compute in Hparts. injection Hparts as <- <-. split; reflexivity. }
    apply Happended.
    + right. discriminate.
    + reflexivity.
    + reflexivity.
Defined.

(** C6 as stated fails: the request is not always the one with the part
    before the [=] appended.  For [--=-f] the part before it is [--], which
    is no sentinel here, and the option names are offered, while the request
    [--] followed by [-f] gets none; for [--opt1==] the part after it is
    [=], which is kept as the prefix of the value, while the request
    [--opt1] followed by [=] is completed as the empty string. *)
Lemma wordbreak_split_not_appended_counterexample :
  start_of_option "--=-f" = true ∧ str_in WORDBREAK "--=-f" = true ∧
  partition "--=-f" WORDBREAK = ("--", WORDBREAK, "-f") ∧
  example_get_choices 3 foo_cli "cli" [] "--=-f" =
    Some (Ok [(VStr "-f", Some "foo help")]) ∧
  example_get_choices 3 foo_cli "cli" ([] ++ ["--"]) "-f" = Some (Ok []) ∧
  start_of_option "--opt1==" = true ∧ str_in WORDBREAK "--opt1==" = true ∧
  partition "--opt1==" WORDBREAK = ("--opt1", WORDBREAK, "=") ∧
  example_get_choices 3 opt1_cli "cli" [] "--opt1==" = Some (Ok []) ∧
  example_get_choices 3 opt1_cli "cli" ([] ++ ["--opt1"]) "=" =
    Some (Ok [(VStr "opt11", None); (VStr "opt12", None)]) ∧
  example_get_choices 3 foo_cli "cli" [] "--=-f" ≠
    example_get_choices 3 foo_cli "cli" ([] ++ ["--"]) "-f" ∧
  example_get_choices 3 opt1_cli "cli" [] "--opt1==" ≠
    example_get_choices 3 opt1_cli "cli" ([] ++ ["--opt1"]) "=".
Proof.
  repeat split; try reflexivity.
  - intros Hsame. vm_compute in Hsame. discriminate Hsame.
  - intros Hsame. vm_compute in Hsame. discriminate Hsame.
Qed.

(** The callback [get_colors] is called with the context, the arguments
    and [b]; its tuple is kept. *)
Lemma get_user_autocompletions_cases_witness :
  ∃ candidates,
    get_user_autocompletions example_callbacks color_ctx [] "b"
      (example_argument "color" OtherType (Some "get_colors")) =
      Ok candidates ∧
    Forall2 (λ item c,
               match item with
               | Bare v => c = (v, None)
               | Tuple v descr => c = (v, descr)
               end) [Tuple (VStr "blue") (Some "a colour")] candidates.
Proof.
  destruct (get_user_autocompletions_cases example_callbacks color_ctx [] "b"
              (example_argument "color" OtherType (Some "get_colors")))
    as (_ & Hdynamic & _).
  apply (Hdynamic "get_colors"); reflexivity.
Defined.

(** A class declared on [ShellComplete] is stored under its name, also
    when the name is taken. *)
Lemma add_completion_class_direct_example :
  add_completion_class "bash" MyComplete example_shells =
  (Ok (), <["bash" := MyComplete]> example_shells).
Proof.
  apply (proj1 (proj1 (proj2
           (add_completion_class_checks_base "bash" MyComplete
              example_shells)))).
  reflexivity.
Qed.

(** C8 is not met by the code.  [MyBashComplete], declared as a subclass of
    [BashComplete], extends [ShellComplete]; [add_completion_class] raises
    all the same, with the message that the class must extend
    [ShellComplete], and the class is not stored: the test looks at the
    first base of the class only. *)
Theorem add_completion_class_rejects_indirect_subclass :
  extends (py_class MyBashComplete) ShellComplete_class = true ∧
  issubclass (py_class MyBashComplete) ShellComplete_class = true ∧
  __base__ (py_class MyBashComplete) =
    Some (Build_PyClass "BashComplete" [ShellComplete_class]) ∧
  add_completion_class "mybash" MyBashComplete example_shells =
    (Raise (Exception "Completion class must extend `ShellComplete`"),
     example_shells) ∧
  example_shells !! "mybash" = None.
Proof. repeat split; reflexivity. Qed.

(** [source_zsh] prints the script of the zsh adapter and returns [True];
    an unknown command returns [False] and prints nothing. *)
Lemma shell_complete_dispatch_witness :
  shell_complete example_format example_strip example_shells foo_cli "cli"
    "_CLI_COMPLETE" "source_zsh" [] = (Ok true, ["zsh script;"]) ∧
  shell_complete example_format example_strip example_shells foo_cli "cli"
    "_CLI_COMPLETE" "bogus_zsh" [] = (Ok false, []).
Proof.
  split.
  - destruct (shell_complete_dispatch example_format example_strip
                example_shells foo_cli "cli" "_CLI_COMPLETE" "source_zsh" [])
      as (command & shell & Hsplit & _ & Hsource & _).
    vm_compute in Hsplit. injection Hsplit as <- <-.
    apply (Hsource eq_refl). reflexivity.
  - destruct (shell_complete_dispatch example_format example_strip
                example_shells foo_cli "cli" "_CLI_COMPLETE" "bogus_zsh" [])
      as (command & shell & Hsplit & _ & _ & _ & Hother).
    vm_compute in Hsplit. injection Hsplit as <- <-.
    apply Hother; discriminate.
Defined.

(** * Further properties of the code *)

(** ** The classifier primitives *)

(** [start_of_option] holds exactly for the strings whose first
    character is [-]; the empty string does not start an option. *)
Lemma start_of_option_iff (param_str : string) :
  start_of_option param_str = true ↔ ∃ rest, param_str = String "-" rest.
Proof.
  destruct param_str as [|c rest].
  - split; [done|]. by intros [? ?].
  - rewrite start_of_option_cons, Ascii.eqb_eq. naive_solver.
Qed.

Lemma last_tokens_one {A} (l : list A) :
  last_tokens 1 l = option_list (last l).
Proof.
  unfold last_tokens. destruct l as [|x l] using rev_ind; [done|].
  rewrite last_snoc, length_app. simpl.
  replace (length l + 1 - 1) with (length l) by lia.
  by rewrite drop_app_length.
Qed.

Lemma last_tokens_app {A} (n : nat) (l1 l2 : list A) :
  length l2 ≤ n →
  last_tokens n (l1 ++ l2) = last_tokens (n - length l2) l1 ++ l2.
Proof.
  intros Hn. unfold last_tokens. rewrite length_app.
  replace (length l1 + length l2 - n) with (length l1 - (n - length l2))
    by lia.
  rewrite drop_app_le by lia. done.
Qed.

Lemma last_tokens_app_short {A} (n : nat) (l1 l2 : list A) :
  n ≤ length l2 → last_tokens n (l1 ++ l2) = last_tokens n l2.
Proof.
  intros Hn. unfold last_tokens. rewrite length_app.
  replace (length l1 + length l2 - n) with (length l1 + (length l2 - n))
    by lia.
  by rewrite drop_app_add.
Qed.

Lemma filter_start_of_option_none (l : list string) :
  Forall (λ t, start_of_option t = false) l →
  filter (λ t, start_of_option t) l = [].
Proof.
  induction 1 as [|t l Ht _ IH]; [done|].
  rewrite filter_cons_False; [done|]. by apply Is_true_false.
Qed.

Lemma filter_wordbreak_values (values : list string) :
  Forall (λ v, start_of_option v = false ∧ v ≠ WORDBREAK) values →
  filter (λ arg, arg ≠ WORDBREAK) values = values.
Proof.
  induction 1 as [|v values [_ Hv] _ IH]; [done|].
  by rewrite filter_cons_True, IH.
Qed.

Lemma is_incomplete_option_flags (p : ParameterAttrs) (o : OptionAttrs)
    (all_args : list string) :
  is_flag o = false →
  is_incomplete_option all_args (Option p o) =
  match head (flags_in_window (nargs p) all_args) with
  | Some t => bool_decide (t ∈ opts p)
  | None => false
  end.
Proof.
  intros Hflag.
  pose proof (proj1 is_incomplete_option_first_flag_in_window p o all_args
                Hflag) as Hiff.
  destruct (head _) as [t|].
  - destruct (is_incomplete_option _ _), (decide (t ∈ opts p)) as [Ht|Ht].
    + by rewrite bool_decide_eq_true_2.
    + destruct Hiff as [Hiff _]. destruct (Hiff eq_refl) as (? & [= <-] & ?).
      done.
    + destruct Hiff as [_ Hiff].
      assert (false = true) by (apply Hiff; eauto). done.
    + by rewrite bool_decide_eq_false_2.
  - destruct (is_incomplete_option _ _); [|done].
    destruct Hiff as [Hiff _]. by destruct (Hiff eq_refl) as (? & [=] & ?).
Qed.

(** X1: an option that takes one value awaits it exactly when the last
    token, tokens equal to [=] apart, starts an option and is one of the
    spellings of the option. *)
Theorem is_incomplete_option_single_value (p : ParameterAttrs)
    (o : OptionAttrs) (all_args : list string) :
  is_flag o = false → nargs p = 1%Z →
  is_incomplete_option all_args (Option p o) = true ↔
  ∃ t, last (filter (λ arg, arg ≠ WORDBREAK) all_args) = Some t ∧
       start_of_option t = true ∧ t ∈ opts p.
Proof.
  intros Hflag Hnargs. rewrite is_incomplete_option_flags by done.
  unfold flags_in_window. rewrite Hnargs.
  change (Z.to_nat 1) with 1. rewrite last_tokens_one.
  destruct (last _) as [t|]; simpl.
  - rewrite filter_cons, filter_nil.
    destruct (decide (start_of_option t)) as [Ht|Ht]; simpl.
    + rewrite bool_decide_eq_true. apply Is_true_true in Ht. naive_solver.
    + apply Is_true_false in Ht. split; [done|].
      intros (? & [= <-] & ? & _). congruence.
  - split; [done|]. by intros (? & [=] & _).
Qed.

(** X2: [is_incomplete_option] looks at the last [nargs] tokens other than
    [=] only: tokens equal to [=] can be removed, and the tokens before a
    suffix that holds [nargs] other tokens can be dropped. *)
Theorem is_incomplete_option_window_only (cmd_param : Param)
    (pre all_args : list string) :
  is_incomplete_option (filter (λ arg, arg ≠ WORDBREAK) all_args) cmd_param =
    is_incomplete_option all_args cmd_param ∧
  ((nargs (attrs cmd_param)
    ≤ Z.of_nat (length (filter (λ arg, arg ≠ WORDBREAK) all_args)))%Z →
   is_incomplete_option (pre ++ all_args) cmd_param =
   is_incomplete_option all_args cmd_param).
Proof.
  destruct cmd_param as [p o|p|p]; [|done..].
  destruct (is_flag o) eqn:Hflag.
  { simpl. by rewrite Hflag. }
  rewrite !is_incomplete_option_flags by done. unfold flags_in_window.
  split.
  - by rewrite list_filter_filter_l.
  - simpl. intros Hlen. rewrite filter_app, last_tokens_app_short by lia.
    done.
Qed.

(** X3: once [nargs] values have followed, the option awaits nothing: if
    the arguments end with at least [nargs] tokens that neither start an
    option nor are [=], [is_incomplete_option] is false.  It is also false
    whenever [nargs] is not positive. *)
Theorem is_incomplete_option_values_supplied (cmd_param : Param)
    (pre values : list string) :
  Forall (λ v, start_of_option v = false ∧ v ≠ WORDBREAK) values →
  (nargs (attrs cmd_param) ≤ Z.of_nat (length values))%Z →
  is_incomplete_option (pre ++ values) cmd_param = false.
Proof.
  intros Hvalues Hlen.
  destruct cmd_param as [p o|p|p]; [|done..].
  destruct (is_flag o) eqn:Hflag.
  { simpl. by rewrite Hflag. }
  rewrite is_incomplete_option_flags by done. unfold flags_in_window.
  simpl in Hlen. rewrite filter_app.
  rewrite (filter_wordbreak_values _ Hvalues).
  rewrite last_tokens_app_short by lia.
  rewrite filter_start_of_option_none; [done|].
  apply Forall_drop. eapply Forall_impl; [exact Hvalues|]. by intros v [? _].
Qed.

(** X4: with fewer than [nargs] values after one of its spellings, the
    option awaits a value, provided that none of the tokens before the
    spelling that still fall among the last [nargs] starts an option. *)
Theorem is_incomplete_option_values_missing (p : ParameterAttrs)
    (o : OptionAttrs) (pre values : list string) (flag : string) :
  is_flag o = false →
  flag ∈ opts p → start_of_option flag = true →
  Forall (λ v, start_of_option v = false ∧ v ≠ WORDBREAK) values →
  (Z.of_nat (length values) < nargs p)%Z →
  Forall (λ t, start_of_option t = false)
    (last_tokens (Z.to_nat (nargs p) - 1 - length values)
       (filter (λ arg, arg ≠ WORDBREAK) pre)) →
  is_incomplete_option (pre ++ flag :: values) (Option p o) = true.
Proof.
  intros Hflag Hin Hstart Hvalues Hlen Hpre.
  rewrite is_incomplete_option_flags by done. unfold flags_in_window.
  assert (Hflag_kept : flag ≠ WORDBREAK).
  { intros ->. done. }
  rewrite filter_app, filter_cons_True by done.
  rewrite (filter_wordbreak_values _ Hvalues).
  rewrite last_tokens_app by (simpl; lia). simpl length.
  replace (Z.to_nat (nargs p) - S (length values))
    with (Z.to_nat (nargs p) - 1 - length values) by lia.
  rewrite filter_app, (filter_start_of_option_none _ Hpre). simpl.
  rewrite filter_cons_True by (by rewrite Hstart). simpl.
  by apply bool_decide_eq_true_2.
Qed.

Lemma is_incomplete_argument_key_error (current_params : gmap string pyval)
    (cmd_param : Param) (e : exn) :
  is_incomplete_argument current_params cmd_param = Raise e →
  ∃ p, cmd_param = Argument p ∧ current_params !! name p = None ∧
       e = KeyError (name p).
Proof.
  destruct cmd_param as [p o|p|p]; simpl; [done| |done].
  destruct (current_params !! name p) as [v|] eqn:Hv.
  - destruct v; [done|..]; repeat case_match; done.
  - intros [= <-]. eauto.
Qed.

(** X5: [is_incomplete_argument] raises exactly for an argument whose name
    is not a key of the parsed values, and then it raises [KeyError] with
    that name. *)
Theorem is_incomplete_argument_raises (current_params : gmap string pyval)
    (cmd_param : Param) (e : exn) :
  is_incomplete_argument current_params cmd_param = Raise e ↔
  ∃ p, cmd_param = Argument p ∧ current_params !! name p = None ∧
       e = KeyError (name p).
Proof.
  split; [apply is_incomplete_argument_key_error|].
  intros (p & -> & Hp & ->). simpl. by rewrite Hp.
Qed.

(** ** The completion engine *)

Lemma first_incomplete_argument_raises (current_params : gmap string pyval)
    (pre post : list Param) (param : Param) (e : exn) :
  Forall (λ q, is_incomplete_argument current_params q = Ok false) pre →
  is_incomplete_argument current_params param = Raise e →
  first_incomplete_argument current_params (pre ++ param :: post) = Raise e.
Proof.
  intros Hpre Hparam. induction Hpre as [|q pre Hq _ IH]; simpl.
  - by rewrite Hparam.
  - by rewrite Hq.
Qed.

(** The three outcomes of the scan for an open argument. *)
Lemma first_incomplete_argument_outcomes (current_params : gmap string pyval)
    (ps : list Param) :
  match first_incomplete_argument current_params ps with
  | Ok None =>
      Forall (λ q, is_incomplete_argument current_params q = Ok false) ps
  | Ok (Some q) =>
      q ∈ ps ∧ is_incomplete_argument current_params q = Ok true
  | Raise e => ∃ key, e = KeyError key
  end.
Proof.
  induction ps as [|q ps IH]; simpl; [done|].
  destruct (is_incomplete_argument current_params q) as [[]|e] eqn:Hq; simpl.
  - split; [by left|done].
  - destruct (first_incomplete_argument current_params ps) as [[q'|]|e'].
    + destruct IH as [? ?]. split; [by right|done].
    + by constructor.
    + done.
  - apply is_incomplete_argument_key_error in Hq as (p & _ & _ & ->). eauto.
Qed.

Lemma visible_commands_unresolved (m : MultiCommand Command)
    (names : list string) (starts_with k : string) :
  k ∈ names → startswith k starts_with = true → get_command m k = None →
  visible_commands m names starts_with = Raise (AttributeError "hidden").
Proof.
  intros Hk Hstart Hnone. induction names as [|c names IH]; [by inversion Hk|].
  simpl. apply elem_of_cons in Hk as [<-|Hk].
  - by rewrite Hstart, Hnone.
  - rewrite (IH Hk). destruct (startswith c starts_with); [|done].
    by destruct (get_command m c).
Qed.

Lemma add_chained_completions_unchained (ctx : Ctx) (incomplete : string)
    (completions_out : list (string * string)) :
  Forall (λ a, is_chained (command a) = false) (ancestors ctx) →
  add_chained_completions ctx incomplete completions_out = Ok completions_out.
Proof.
  induction ctx as [ctx Hroot|ctx p Hp IH] using Ctx_parent_ind;
    intros Hchain; destruct ctx as [cmd parent' ps pa a]; simpl in *; subst.
  - done.
  - apply Forall_cons in Hchain as [Hp Hrest]. rewrite Hp. by apply IH.
Qed.

Lemma offered_spellings_start (all_args : list string) (incomplete : string)
    (ps : list Param) :
  Forall (λ c : candidate, startswith (py_str c.1) incomplete = true)
    (ps ≫= offered_spellings all_args incomplete).
Proof.
  apply Forall_forall. intros c (param & Hc & _)%list_elem_of_bind.
  destruct param as [p o|p|p]; simpl in Hc; [|by inversion Hc..].
  destruct (hidden o); [by inversion Hc|].
  apply list_elem_of_fmap in Hc as (s & -> & Hs).
  apply list_elem_of_filter in Hs as [[Hstart _] _]. by apply Is_true_true.
Qed.

Lemma visible_children_listed (cmd : Command) (starts_with : string)
    (c : Command) :
  c ∈ visible_children cmd starts_with ↔
  ∃ m k, multi cmd = Some m ∧ k ∈ list_commands m ∧
         startswith k starts_with = true ∧ get_command m k = Some c ∧
         cmd_hidden c = false.
Proof.
  unfold visible_children. destruct (multi cmd) as [m|].
  - rewrite list_elem_of_filter, list_elem_of_omap.
    setoid_rewrite list_elem_of_filter. setoid_rewrite Is_true_true.
    split.
    + intros [Hvisible (k & [Hstart Hk] & Hc)]. exists m, k.
      destruct (cmd_hidden c); naive_solver.
    + intros (m' & k & [= <-] & Hk & Hstart & Hc & Hvisible).
      split; [by rewrite Hvisible|eauto].
  - split; [by inversion 1|by intros (? & ? & [=] & _)].
Qed.

Lemma subcommand_offer_start (ctx : Ctx) (incomplete : string) :
  named_as_listed ctx →
  Forall (λ x, startswith x.1 incomplete = true)
    (subcommand_offer ctx incomplete).
Proof.
  intros [Hctx Hrest]%Forall_cons. unfold subcommand_offer.
  assert (Hnamed : ∀ a c,
            (∀ m k c', multi (command a) = Some m →
                       get_command m k = Some c' → cmd_name c' = k) →
            c ∈ visible_children (command a) incomplete →
            startswith (cmd_name c) incomplete = true).
  { intros a c Ha (m & k & Hm & _ & Hstart & Hc & _)%visible_children_listed.
    by rewrite (Ha m k c Hm Hc). }
  apply Forall_app. split.
  - apply Forall_fmap, Forall_forall. intros c Hc. by apply (Hnamed ctx).
  - apply Forall_forall. intros x (a & Hx & Ha)%list_elem_of_bind.
    apply elem_of_chained_offer in Hx as (_ & c & Hc & _ & ->).
    rewrite Forall_forall in Hrest. by apply (Hnamed a c (Hrest a Ha)).
Qed.

Section EngineExtras.

Variable autocompletion_call :
  callback → Ctx → list string → string → result (list completion_item).
Variable make_context :
  Command → string → list string → option Ctx → bool → Ctx.
Variable resolve_command :
  Command → Ctx → list string → string * option Command * list string.

Ltac unfold_choices := unfold choices_for, get_user_autocompletions.

Local Abbreviation get_choices :=
  (get_choices autocompletion_call make_context resolve_command).
Local Abbreviation choices_for := (choices_for autocompletion_call).
Local Abbreviation resolve_ctx := (resolve_ctx make_context resolve_command).
Local Abbreviation get_user_autocompletions :=
  (get_user_autocompletions autocompletion_call).

Lemma get_choices_choices_for (fuel : nat) (cli : Command)
    (prog_name : string) (args all_args : list string)
    (incomplete incomplete' : string) (ctx : Ctx) :
  resolve_ctx fuel cli prog_name args = Some ctx →
  split_incomplete args incomplete = (all_args, incomplete') →
  get_choices fuel cli prog_name args incomplete =
  Some (choices_for ctx (bool_decide ("--" ∈ args)) all_args incomplete').
Proof.
  intros Hctx Hsplit.
  rewrite (get_choices_resolved _ _ _ _ _ _ _ _ _ Hctx).
  by rewrite (get_choices_from_split _ _ _ _ _ _ Hsplit).
Qed.

(** X6: when the scan for an open argument meets an argument whose name is
    not a key of [ctx.params] before it finds an open one, [get_choices]
    raises [KeyError] with that name: no candidates are returned. *)
Theorem get_choices_missing_value (fuel : nat) (cli : Command)
    (prog_name : string) (args all_args : list string)
    (incomplete incomplete' : string) (ctx : Ctx)
    (pre post : list Param) (a : ParameterAttrs) :
  resolve_ctx fuel cli prog_name args = Some ctx →
  split_incomplete args incomplete = (all_args, incomplete') →
  ¬ (bool_decide ("--" ∈ args) = false ∧ start_of_option incomplete' = true) →
  Forall (λ q, is_incomplete_option all_args q = false)
    (get_params (command ctx)) →
  get_params (command ctx) = pre ++ Argument a :: post →
  Forall (λ q, is_incomplete_argument (params ctx) q = Ok false) pre →
  params ctx !! name a = None →
  get_choices fuel cli prog_name args incomplete =
  Some (Raise (KeyError (name a))).
Proof.
  intros Hctx Hsplit Hnot Hopts Hps Hpre Hmissing.
  rewrite (get_choices_choices_for _ _ _ _ _ _ _ _ Hctx Hsplit).
  unfold_choices. rewrite (not_option_names autocompletion_call _ _ Hnot).
  rewrite (first_incomplete_option_none _ _ Hopts), Hps.
  rewrite (first_incomplete_argument_raises _ _ _ _ (KeyError (name a)) Hpre);
    [done|].
  simpl. by rewrite Hmissing.
Qed.

(** X7: a command with a variadic argument ([nargs = -1]) whose value is
    recorded never gets subcommand names: once option names and option
    values are out, the result is the value candidates of one of the
    arguments, or [KeyError]. *)
Theorem variadic_argument_before_subcommands (fuel : nat) (cli : Command)
    (prog_name : string) (args all_args : list string)
    (incomplete incomplete' : string) (ctx : Ctx) (p : ParameterAttrs) :
  resolve_ctx fuel cli prog_name args = Some ctx →
  split_incomplete args incomplete = (all_args, incomplete') →
  ¬ (bool_decide ("--" ∈ args) = false ∧ start_of_option incomplete' = true) →
  Forall (λ q, is_incomplete_option all_args q = false)
    (get_params (command ctx)) →
  Argument p ∈ get_params (command ctx) → nargs p = (-1)%Z →
  is_Some (params ctx !! name p) →
  (∃ a, Argument a ∈ get_params (command ctx) ∧
        get_choices fuel cli prog_name args incomplete =
        Some (get_user_autocompletions ctx all_args incomplete' (Argument a))) ∨
  (∃ key, get_choices fuel cli prog_name args incomplete =
          Some (Raise (KeyError key))).
Proof.
  intros Hctx Hsplit Hnot Hopts Hp Hnargs [v Hv].
  rewrite (get_choices_choices_for _ _ _ _ _ _ _ _ Hctx Hsplit).
  unfold_choices. rewrite (not_option_names autocompletion_call _ _ Hnot).
  rewrite (first_incomplete_option_none _ _ Hopts).
  pose proof (first_incomplete_argument_outcomes (params ctx)
                (get_params (command ctx))) as Hscan.
  destruct (first_incomplete_argument _ _) as [[q|]|e]; simpl.
  - destruct Hscan as [Hq Hopen]. left.
    destruct q as [p' o'|a|p']; simpl in Hopen; [done| |done]. eauto.
  - rewrite Forall_forall in Hscan. specialize (Hscan _ Hp). simpl in Hscan.
    rewrite Hv, Hnargs in Hscan. by destruct v.
  - destruct Hscan as [key ->]. eauto.
Qed.

(** X8: every candidate starts with what was typed, whenever the
    candidates are option names, the choices of a choice parameter, or
    subcommand names of commands that are listed under their own name. *)
Theorem candidates_start_with_incomplete (fuel : nat) (cli : Command)
    (prog_name : string) (args all_args : list string)
    (incomplete incomplete' : string) (ctx : Ctx) (k : classification) :
  resolve_ctx fuel cli prog_name args = Some ctx →
  split_incomplete args incomplete = (all_args, incomplete') →
  classifies ctx (bool_decide ("--" ∈ args)) all_args incomplete' k →
  match k with
  | OptionNames => True
  | OptionValue q | ArgumentValue q => ∃ choices, type (attrs q) = Choice choices
  | SubcommandNames => well_listed ctx ∧ named_as_listed ctx
  end →
  ∃ candidates,
    get_choices fuel cli prog_name args incomplete = Some (Ok candidates) ∧
    Forall (λ c, startswith (py_str c.1) incomplete' = true) candidates.
Proof.
  intros Hctx Hsplit Hk Hside.
  rewrite (get_choices_choices_for _ _ _ _ _ _ _ _ Hctx Hsplit).
  rewrite (choices_for_classified _ _ _ _ _ _ Hk).
  assert (Hchoice : ∀ q choices, type (attrs q) = Choice choices →
    ∃ candidates,
      get_user_autocompletions ctx all_args incomplete' q = Ok candidates ∧
      Forall (λ c, startswith (py_str c.1) incomplete' = true) candidates).
  { intros q choices Htype. unfold_choices. rewrite Htype.
    eexists. split; [done|].
    apply Forall_fmap, Forall_forall. intros c [Hc _]%list_elem_of_filter.
    by apply Is_true_true. }
  destruct k as [|q|q|]; simpl.
  - eexists. split; [done|]. apply offered_spellings_start.
  - destruct Hside as [choices Htype].
    destruct (Hchoice q choices Htype) as (candidates & -> & Hall). eauto.
  - destruct Hside as [choices Htype].
    destruct (Hchoice q choices Htype) as (candidates & -> & Hall). eauto.
  - destruct Hside as [Hlisted Hnamed].
    rewrite add_subcommand_completions_listed by done. simpl.
    eexists. split; [done|]. apply Forall_fmap.
    rewrite sorted_Permutation. simpl.
    by apply subcommand_offer_start.
Qed.

(** X9: a name that the active command lists and cannot resolve is not
    skipped: if it starts with [incomplete], asking for subcommand names
    raises [AttributeError]. *)
Theorem get_choices_unresolved_command (fuel : nat) (cli : Command)
    (prog_name : string) (args all_args : list string)
    (incomplete incomplete' : string) (ctx : Ctx)
    (m : MultiCommand Command) (k : string) :
  resolve_ctx fuel cli prog_name args = Some ctx →
  split_incomplete args incomplete = (all_args, incomplete') →
  classifies ctx (bool_decide ("--" ∈ args)) all_args incomplete'
    SubcommandNames →
  multi (command ctx) = Some m → k ∈ list_commands m →
  startswith k incomplete' = true → get_command m k = None →
  get_choices fuel cli prog_name args incomplete =
  Some (Raise (AttributeError "hidden")).
Proof.
  intros Hctx Hsplit Hk Hm Hlisted Hstart Hnone.
  rewrite (get_choices_choices_for _ _ _ _ _ _ _ _ Hctx Hsplit).
  rewrite (choices_for_classified _ _ _ _ _ _ Hk). simpl.
  unfold add_subcommand_completions, get_visible_commands_starting_with.
  rewrite Hm. by rewrite (visible_commands_unresolved _ _ _ k).
Qed.

(** X10: a command that is not a multi command and has no chained command
    above it gets no subcommand names: the result is empty. *)
Theorem get_choices_plain_command (fuel : nat) (cli : Command)
    (prog_name : string) (args all_args : list string)
    (incomplete incomplete' : string) (ctx : Ctx) :
  resolve_ctx fuel cli prog_name args = Some ctx →
  split_incomplete args incomplete = (all_args, incomplete') →
  classifies ctx (bool_decide ("--" ∈ args)) all_args incomplete'
    SubcommandNames →
  multi (command ctx) = None →
  Forall (λ a, is_chained (command a) = false) (ancestors ctx) →
  get_choices fuel cli prog_name args incomplete = Some (Ok []).
Proof.
  intros Hctx Hsplit Hk Hplain Hchain.
  rewrite (get_choices_choices_for _ _ _ _ _ _ _ _ Hctx Hsplit).
  rewrite (choices_for_classified _ _ _ _ _ _ Hk). simpl.
  unfold add_subcommand_completions. rewrite Hplain. simpl.
  by rewrite add_chained_completions_unchained.
Qed.

End EngineExtras.

(** ** resolve_ctx *)

Section ResolveFuel.

Variable autocompletion_call :
  callback → Ctx → list string → string → result (list completion_item).
Variable make_context :
  Command → string → list string → option Ctx → bool → Ctx.
Variable resolve_command :
  Command → Ctx → list string → string * option Command * list string.

(** What the loops rely on to end: [resolve_command] returns fewer
    arguments than it is given ([args[1:]] for the multi commands of click),
    and the parser leaves no more tokens than it is given. *)
Hypothesis resolve_command_consumes : ∀ cmd ctx args,
  args ≠ [] → length (resolve_command cmd ctx args).2 < length args.
Hypothesis make_context_leftover : ∀ cmd info_name args parent chained,
  length (protected_args (make_context cmd info_name args parent chained) ++
          ctx_args (make_context cmd info_name args parent chained))
  ≤ length args.

Local Abbreviation walk_chain := (walk_chain make_context resolve_command).
Local Abbreviation resolve_loop := (resolve_loop make_context resolve_command).
Local Abbreviation resolve_ctx := (resolve_ctx make_context resolve_command).
Local Abbreviation get_choices :=
  (get_choices autocompletion_call make_context resolve_command).

Lemma walk_chain_more_fuel (fuel fuel' : nat) (ctx : Ctx)
    (args : list string) (r : chain_walk) :
  fuel ≤ fuel' → walk_chain fuel ctx args = Some r →
  walk_chain fuel' ctx args = Some r.
Proof.
  revert fuel' args. induction fuel as [|fuel IH]; intros fuel' args Hle;
    [done|].
  destruct fuel' as [|fuel']; [lia|]. simpl.
  destruct (resolve_command (command ctx) ctx args) as [[n [cmd|]] rest];
    [|done].
  destruct (ctx_args _); [done|]. apply IH. lia.
Qed.

Lemma resolve_loop_more_fuel (fuel fuel' : nat) (ctx ctx' : Ctx)
    (args : list string) :
  fuel ≤ fuel' → resolve_loop fuel ctx args = Some ctx' →
  resolve_loop fuel' ctx args = Some ctx'.
Proof.
  revert fuel' ctx args. induction fuel as [|fuel IH];
    intros fuel' ctx args Hle; [done|].
  destruct fuel' as [|fuel']; [lia|]. simpl.
  destruct args as [|arg args]; [done|].
  destruct (multi (command ctx)) as [m|]; [|done].
  destruct (chain m); simpl.
  - destruct (walk_chain fuel ctx (arg :: args)) as [r|] eqn:Hwalk; [|done].
    rewrite (walk_chain_more_fuel fuel fuel' _ _ r) by (done || lia).
    destruct r; [done|]. apply IH. lia.
  - destruct (resolve_command (command ctx) ctx (arg :: args))
      as [[n [cmd|]] rest]; [|done].
    apply IH. lia.
Qed.

Lemma walk_chain_returns (fuel : nat) (ctx : Ctx) (args : list string) :
  args ≠ [] → length args ≤ fuel →
  ∃ r, walk_chain fuel ctx args = Some r ∧
       match r with
       | Returned _ => True
       | Walked sub_ctx =>
           length (protected_args sub_ctx ++ ctx_args sub_ctx) < length args
       end.
Proof.
  revert args. induction fuel as [|fuel IH]; intros args Hargs Hlen.
  { destruct args; [done|simpl in Hlen; lia]. }
  simpl.
  pose proof (resolve_command_consumes (command ctx) ctx args Hargs) as Hrest.
  destruct (resolve_command (command ctx) ctx args) as [[n [cmd|]] rest];
    [|by eexists]. simpl in Hrest.
  pose proof (make_context_leftover cmd n rest (Some ctx) true) as Hleft.
  rewrite length_app in Hleft.
  destruct (ctx_args _) as [|arg' args'] eqn:Hsub.
  - eexists. split; [done|]. simpl. rewrite Hsub, length_app. simpl. lia.
  - destruct (IH (arg' :: args')) as (r & -> & Hr); [done|simpl in *; lia|].
    exists r. split; [done|]. destruct r; [done|]. simpl in *. lia.
Qed.

Lemma resolve_loop_returns (fuel : nat) (ctx : Ctx) (args : list string) :
  length args < fuel → is_Some (resolve_loop fuel ctx args).
Proof.
  revert ctx args. induction fuel as [|fuel IH]; intros ctx args Hlen; [lia|].
  simpl. destruct args as [|arg args]; [by eexists|].
  destruct (multi (command ctx)) as [m|]; [|by eexists].
  destruct (chain m); simpl.
  - destruct (walk_chain_returns fuel ctx (arg :: args)) as (r & -> & Hr);
      [done|simpl in *; lia|].
    destruct r; [by eexists|]. apply IH. simpl in *. lia.
  - pose proof (resolve_command_consumes (command ctx) ctx (arg :: args))
      as Hrest.
    destruct (resolve_command (command ctx) ctx (arg :: args))
      as [[n [cmd|]] rest]; [|by eexists].
    apply IH. simpl in Hrest.
    pose proof (make_context_leftover cmd n rest (Some ctx) false).
    specialize (Hrest ltac:(done)). simpl in *. lia.
Qed.

(** X11: [resolve_ctx] comes to an end.  For a parser that consumes tokens
    as click's does, fuel beyond the number of arguments always gives a
    context, the same one for any larger fuel, and so [get_choices] returns
    candidates or raises. *)
Theorem resolve_ctx_terminates (fuel : nat) (cli : Command)
    (prog_name : string) (args : list string) (incomplete : string) :
  length args < fuel →
  ∃ ctx,
    resolve_ctx fuel cli prog_name args = Some ctx ∧
    (∀ fuel', fuel ≤ fuel' →
       resolve_ctx fuel' cli prog_name args = Some ctx) ∧
    (∀ fuel', fuel ≤ fuel' →
       get_choices fuel' cli prog_name args incomplete =
       Some (get_choices_from autocompletion_call ctx args incomplete)).
Proof.
  intros Hlen.
  pose proof (make_context_leftover cli prog_name args None false) as Hleft.
  destruct (resolve_loop_returns fuel
              (make_context cli prog_name args None false)
              (protected_args (make_context cli prog_name args None false) ++
               ctx_args (make_context cli prog_name args None false)))
    as [ctx Hctx]; [lia|].
  assert (Hmore : ∀ fuel', fuel ≤ fuel' →
                           resolve_ctx fuel' cli prog_name args = Some ctx).
  { intros fuel' Hle. by apply (resolve_loop_more_fuel fuel). }
  exists ctx. split; [done|]. split; [done|].
  intros fuel' Hle. by apply get_choices_resolved, Hmore.
Qed.

End ResolveFuel.

Section ResolveChain.

Variable make_context :
  Command → string → list string → option Ctx → bool → Ctx.
Variable resolve_command :
  Command → Ctx → list string → string * option Command * list string.

(** [make_context] builds the context below the parent that it is given. *)
Hypothesis make_context_parent : ∀ cmd info_name args parent_ctx chained,
  parent (make_context cmd info_name args parent_ctx chained) = parent_ctx.

Local Abbreviation walk_chain := (walk_chain make_context resolve_command).
Local Abbreviation resolve_loop := (resolve_loop make_context resolve_command).
Local Abbreviation resolve_ctx := (resolve_ctx make_context resolve_command).

Lemma ancestors_parent (ctx : Ctx) :
  ancestors ctx =
  match parent ctx with
  | Some p => p :: ancestors p
  | None => []
  end.
Proof. by destruct ctx as [cmd [p|] ps pa a]. Qed.

Lemma walk_chain_outcome (fuel : nat) (ctx : Ctx) (args : list string)
    (r : chain_walk) :
  walk_chain fuel ctx args = Some r →
  match r with
  | Returned ctx' => ctx' = ctx
  | Walked sub_ctx => parent sub_ctx = Some ctx
  end.
Proof.
  revert args. induction fuel as [|fuel IH]; intros args; [done|]. simpl.
  destruct (resolve_command (command ctx) ctx args) as [[n [cmd|]] rest].
  - destruct (ctx_args _) eqn:Hsub.
    + intros [= <-]. apply make_context_parent.
    + apply IH.
  - by intros [= <-].
Qed.

Lemma resolve_loop_chain (fuel : nat) (c ctx : Ctx) (args : list string) :
  resolve_loop fuel c args = Some ctx →
  ctx = c ∨
  ∃ mids, ancestors ctx = mids ++ c :: ancestors c ∧
          Forall (λ a, is_Some (multi (command a))) (mids ++ [c]).
Proof.
  revert c args. induction fuel as [|fuel IH]; intros c args; [done|]. simpl.
  destruct args as [|arg args]; [by intros [= <-]; left|].
  destruct (multi (command c)) as [m|] eqn:Hm; [|by intros [= <-]; left].
  assert (Hstep : ∀ c' args',
            parent c' = Some c → resolve_loop fuel c' args' = Some ctx →
            ∃ mids, ancestors ctx = mids ++ c :: ancestors c ∧
                    Forall (λ a, is_Some (multi (command a))) (mids ++ [c])).
  { intros c' args' Hparent Hloop.
    assert (Hc' : ancestors c' = c :: ancestors c).
    { by rewrite (ancestors_parent c'), Hparent. }
    destruct (IH _ _ Hloop) as [->|(mids & Hmids & Hmulti)].
    - exists []. split; [done|]. constructor; [by rewrite Hm|done].
    - exists (mids ++ [c']). rewrite Hmids, Hc', <-app_assoc. split; [done|].
      apply Forall_app. split; [done|]. constructor; [by rewrite Hm|done]. }
  destruct (chain m); simpl.
  - destruct (walk_chain fuel c (arg :: args)) as [r|] eqn:Hwalk; [|done].
    apply walk_chain_outcome in Hwalk. destruct r as [c'|sub_ctx].
    + intros [= <-]. by left.
    + intros Hloop. right. by apply (Hstep sub_ctx _ Hwalk Hloop).
  - destruct (resolve_command (command c) c (arg :: args))
      as [[n [cmd|]] rest]; [|by intros [= <-]; left].
    intros Hloop. right. eapply Hstep; [|exact Hloop].
    apply make_context_parent.
Qed.

(** X12: the context that [resolve_ctx] returns hangs below the context of
    the program: going up from it ends at the root context, and every
    context above it is that of a multi command. *)
Theorem resolve_ctx_chain (fuel : nat) (cli : Command) (prog_name : string)
    (args : list string) (ctx : Ctx) :
  resolve_ctx fuel cli prog_name args = Some ctx →
  last (ctx :: ancestors ctx) =
    Some (make_context cli prog_name args None false) ∧
  Forall (λ a, is_Some (multi (command a))) (ancestors ctx).
Proof.
  intros Hctx. apply resolve_loop_chain in Hctx.
  assert (Hroot : ancestors (make_context cli prog_name args None false) = []).
  { by rewrite ancestors_parent, make_context_parent. }
  destruct Hctx as [->|(mids & Hmids & Hmulti)].
  - by rewrite Hroot.
  - rewrite Hmids, Hroot. split; [|done].
    by rewrite app_comm_cons, last_snoc.
Qed.

End ResolveChain.

(** ** The [=] normalisation *)

(** X13: [split_incomplete] either appends one token to the arguments or
    leaves them alone.  The token appended starts an option and holds no
    [=], and the token, [=] and the new [incomplete] make up the old
    [incomplete]; otherwise [incomplete] is kept, except that [=] alone
    becomes the empty string. *)
Theorem split_incomplete_cases (args : list string) (incomplete : string) :
  (∃ token incomplete',
     split_incomplete args incomplete = (args ++ [token], incomplete') ∧
     incomplete = token +:+ WORDBREAK +:+ incomplete' ∧
     start_of_option token = true ∧ str_in WORDBREAK token = false) ∨
  (incomplete = WORDBREAK ∧ split_incomplete args incomplete = (args, "")) ∨
  (incomplete ≠ WORDBREAK ∧
   (start_of_option incomplete = false ∨ str_in WORDBREAK incomplete = false) ∧
   split_incomplete args incomplete = (args, incomplete)).
Proof.
  destruct (start_of_option incomplete && str_in WORDBREAK incomplete)
    eqn:Hsplit.
  - left. apply andb_true_iff in Hsplit as [Hstart Hin].
    destruct (str_in_split "=" incomplete Hin) as (token & after & -> & Htoken).
    exists token, after.
    split; [by apply split_incomplete_wordbreak|]. split; [done|].
    split; [|done].
    destruct token as [|c token]; [done|].
    change (String c token +:+ String "=" after)
      with (String c (token +:+ String "=" after)) in Hstart.
    by rewrite start_of_option_cons in *.
  - right. unfold split_incomplete. rewrite Hsplit.
    destruct (String.eqb_spec incomplete WORDBREAK) as [->|Hne].
    + by left.
    + right. split; [done|]. split; [|done].
      apply andb_false_iff in Hsplit. naive_solver.
Qed.

(** ** Scripts and the dictionary of shells *)

Lemma remove_invalid_ident_chars_valid (s : string) :
  Forall (λ c, invalid_ident_char c = false)
    (String.list_ascii_of_string (remove_invalid_ident_chars s)).
Proof.
  induction s as [|c s IH]; simpl; [done|].
  destruct (invalid_ident_char c) eqn:Hc; [done|]. simpl. by constructor.
Qed.

Lemma remove_invalid_ident_chars_id (s : string) :
  Forall (λ c, invalid_ident_char c = false) (String.list_ascii_of_string s) →
  remove_invalid_ident_chars s = s.
Proof.
  induction s as [|c s IH]; simpl; [done|].
  intros [Hc Hs]%Forall_cons. by rewrite Hc, IH.
Qed.

Lemma replace_dash_id (s : string) :
  Forall (λ c, invalid_ident_char c = false) (String.list_ascii_of_string s) →
  replace_dash s = s.
Proof.
  induction s as [|c s IH]; simpl; [done|].
  intros [Hc Hs]%Forall_cons. rewrite IH by done.
  destruct (Ascii.eqb_spec c "-") as [->|]; [done|done].
Qed.

(** X14: the name that [get_completion_script] derives from the program
    name for the completion function holds only letters, digits and
    underscores; a program name made of such characters is kept as it is,
    and a dash becomes an underscore. *)
Theorem completion_function_name (prog_name : string) :
  Forall (λ c, invalid_ident_char c = false)
    (String.list_ascii_of_string
       (remove_invalid_ident_chars (replace_dash prog_name))) ∧
  (Forall (λ c, invalid_ident_char c = false)
     (String.list_ascii_of_string prog_name) →
   remove_invalid_ident_chars (replace_dash prog_name) = prog_name) ∧
  (∀ s t, prog_name = s +:+ "-" +:+ t →
     remove_invalid_ident_chars (replace_dash prog_name) =
     remove_invalid_ident_chars (replace_dash s) +:+ "_" +:+
     remove_invalid_ident_chars (replace_dash t)).
Proof.
  split; [apply remove_invalid_ident_chars_valid|]. split.
  - intros Hvalid. rewrite replace_dash_id by done.
    by apply remove_invalid_ident_chars_id.
  - intros s t ->. induction s as [|c s IH]; [done|].
    change (String c s +:+ "-" +:+ t) with (String c (s +:+ "-" +:+ t)).
    simpl. rewrite IH.
    by destruct (invalid_ident_char (if Ascii.eqb c "-" then _ else c)).
Qed.

Section ShellExtras.

Variables COMPLETION_SCRIPT_BASH COMPLETION_SCRIPT_ZSH COMPLETION_SCRIPT_FISH
  : string.
Variable bash_version_not_usable : bool.
Variable format : string → list (string * string) → string.
Variable strip : string → string.
Variables bash_complete zsh_complete fish_complete :
  ShellCompleteObject → list string → result bool * list string.

Ltac unfold_shell := unfold shell_complete, get_completion_script.

Local Abbreviation initial_shells :=
  (initial_shells COMPLETION_SCRIPT_BASH COMPLETION_SCRIPT_ZSH
     COMPLETION_SCRIPT_FISH bash_version_not_usable bash_complete
     zsh_complete fish_complete).
Local Abbreviation shell_complete := (shell_complete format strip).

Lemma split_instruction_with_shell (command shell : string) :
  str_in "_" command = false →
  split_instruction (command +:+ "_" +:+ shell) = Ok (command, shell).
Proof.
  intros Hcommand. unfold split_instruction, split_once.
  change ("_" +:+ shell) with (String "_" shell).
  by rewrite str_in_append_char, partition_first.
Qed.

(** X15: with a bash that is too old, [source] and [source_bash] raise
    the version error and print nothing, while [complete] and
    [complete_bash] still run the [complete] method of the bash adapter. *)
Theorem shell_complete_old_bash (cli : Command)
    (prog_name complete_var : string) (stdout : list string)
    (complete_instr : string) :
  bash_version_not_usable = true →
  (complete_instr = "source" ∨ complete_instr = "source_bash" →
   shell_complete initial_shells cli prog_name complete_var complete_instr
     stdout =
   (Raise (Exception
      "Shell completion is not supported for bash versions older than 4.4"),
    stdout)) ∧
  (complete_instr = "complete" ∨ complete_instr = "complete_bash" →
   shell_complete initial_shells cli prog_name complete_var complete_instr
     stdout =
   bash_complete
     {| self_prog_name := prog_name; self_complete_var := complete_var;
        self_cli := cli |} stdout).
Proof.
  intros Hold. split.
  - intros [->| ->]; unfold_shell; simpl; by rewrite Hold.
  - by intros [->| ->].
Qed.

(** X16: a class that [add_completion_class] accepts is the one that
    [get_completion_source] returns for its name afterwards, the other
    names keep their classes, and [complete_<name>] runs its [complete]
    method, whatever underscores the name holds. *)
Theorem registered_class_is_used (name : string)
    (completion_class : CompletionClass)
    (available_shells available_shells' : gmap string CompletionClass)
    (cli : Command) (prog_name complete_var : string)
    (stdout : list string) :
  add_completion_class name completion_class available_shells =
    (Ok (), available_shells') →
  get_completion_source available_shells' name = completion_class ∧
  (∀ shell, shell ≠ name →
     get_completion_source available_shells' shell =
     get_completion_source available_shells shell) ∧
  shell_complete available_shells' cli prog_name complete_var
    ("complete_" +:+ name) stdout =
  complete completion_class
    {| self_prog_name := prog_name; self_complete_var := complete_var;
       self_cli := cli |} stdout.
Proof.
  intros Hadd.
  assert (Hshells : available_shells' =
                    <[name := completion_class]> available_shells).
  { unfold add_completion_class in Hadd.
    destruct (match __base__ _ with Some _ => _ | None => _ end);
      by inversion Hadd. }
  subst available_shells'.
  assert (Hsource : get_completion_source
                      (<[name := completion_class]> available_shells) name =
                    completion_class).
  { unfold get_completion_source. by rewrite lookup_insert_eq. }
  split; [done|]. split.
  - intros shell Hshell. unfold get_completion_source.
    by rewrite lookup_insert_ne.
  - unfold_shell.
    change ("complete_" +:+ name) with ("complete" +:+ "_" +:+ name).
    rewrite (split_instruction_with_shell "complete" name eq_refl). simpl.
    by rewrite Hsource.
Qed.

(** X17: for a shell that is not in the dictionary the base class
    [ShellComplete] is taken: [source_<shell>] and [complete_<shell>] raise
    [NotImplementedError] and print nothing. *)
Theorem shell_complete_unknown_shell
    (available_shells : gmap string CompletionClass) (cli : Command)
    (prog_name complete_var shell : string) (stdout : list string) :
  available_shells !! shell = None →
  get_completion_source available_shells shell = ShellComplete ∧
  shell_complete available_shells cli prog_name complete_var
    ("source_" +:+ shell) stdout =
    (Raise (NotImplementedError "source function needs to be overridden"),
     stdout) ∧
  shell_complete available_shells cli prog_name complete_var
    ("complete_" +:+ shell) stdout =
    (Raise (NotImplementedError "complete function needs to be overridden"),
     stdout).
Proof.
  intros Hunknown.
  assert (Hsource : get_completion_source available_shells shell =
                    ShellComplete).
  { unfold get_completion_source. by rewrite Hunknown. }
  split; [done|]. split; unfold_shell.
  - change ("source_" +:+ shell) with ("source" +:+ "_" +:+ shell).
    rewrite (split_instruction_with_shell "source" shell eq_refl). simpl.
    by rewrite Hsource.
  - change ("complete_" +:+ shell) with ("complete" +:+ "_" +:+ shell).
    rewrite (split_instruction_with_shell "complete" shell eq_refl). simpl.
    by rewrite Hsource.
Qed.

End ShellExtras.

(** ** The adapters *)

Lemma py_index_nonneg {A} (l : list A) (i : Z) :
  (0 ≤ i)%Z → py_index l i = l !! Z.to_nat i.
Proof. intros Hi. unfold py_index. by rewrite bool_decide_eq_true_2. Qed.

Lemma py_slice_from_one {A} (l : list A) (stop : Z) :
  (0 ≤ stop)%Z → py_slice l 1 stop = take (Z.to_nat stop - 1) (drop 1 l).
Proof.
  intros Hstop. unfold py_slice, slice_bound.
  rewrite !bool_decide_eq_false_2 by lia.
  destruct l as [|x l]; [by rewrite !drop_nil, !take_nil|].
  replace (Z.to_nat (Z.min 1 (Z.of_nat (length (x :: l))))) with 1
    by (simpl; lia).
  simpl drop. rewrite drop_0.
  destruct (decide (stop ≤ Z.of_nat (length (x :: l)))%Z) as [Hle|Hgt].
  - by rewrite Z.min_l by done.
  - rewrite Z.min_r by lia. rewrite Nat2Z.id.
    rewrite !take_ge; [done|simpl in *; lia..].
Qed.

Lemma bind_one_line {A B} (f : A → B) (l : list A) :
  l ≫= (λ x, [f x]) = f <$> l.
Proof.
  induction l as [|x l IH]; [done|].
  rewrite bind_cons, fmap_cons, IH. done.
Qed.

Section AdapterFacts.

Variable make_context :
  Command → string → list string → option Ctx → bool → Ctx.
Variable resolve_command :
  Command → Ctx → list string → string * option Command * list string.
Variable object_shell_complete :
  partial_value → Ctx → list string → string →
  result (list completion_triple).
Variable environ : gmap string string.
Variable split_arg_string : string → list string.
Variable int : string → result Z.

Ltac unfold_adapters := unfold words_at_cursor, do_complete.
Ltac unfold_bash := unfold BashComplete_complete, complete_and_echo.
Ltac unfold_zsh := unfold ZshComplete_complete, complete_and_echo.
Ltac unfold_fish := unfold FishComplete_complete, complete_and_echo.
Ltac unfold_echo := unfold complete_and_echo.
Ltac unfold_complete :=
  unfold BashComplete_complete, ZshComplete_complete, FishComplete_complete.

Local Abbreviation do_complete :=
  (do_complete make_context resolve_command object_shell_complete).
Local Abbreviation resolve_ctx := (resolve_ctx make_context resolve_command).
Local Abbreviation words_at_cursor :=
  (words_at_cursor environ split_arg_string int).
Local Abbreviation BashComplete_complete :=
  (BashComplete_complete make_context resolve_command object_shell_complete
     environ split_arg_string int).
Local Abbreviation ZshComplete_complete :=
  (ZshComplete_complete make_context resolve_command object_shell_complete
     environ split_arg_string int).
Local Abbreviation FishComplete_complete :=
  (FishComplete_complete make_context resolve_command object_shell_complete
     environ split_arg_string).

(** X18: [do_complete] hands the request to the command when option names
    or subcommand names are due and to the open parameter otherwise, with
    the arguments and [incomplete] as the [=] normalisation leaves them. *)
Theorem do_complete_dispatch (fuel : nat) (cli : Command)
    (prog_name : string) (args all_args : list string)
    (incomplete incomplete' : string) (ctx : Ctx) (k : classification) :
  resolve_ctx fuel cli prog_name args = Some ctx →
  split_incomplete args incomplete = (all_args, incomplete') →
  classifies ctx (bool_decide ("--" ∈ args)) all_args incomplete' k →
  do_complete fuel cli prog_name args incomplete =
  Some (object_shell_complete (handler ctx k) ctx all_args incomplete').
Proof.
  intros Hctx Hsplit Hk. unfold_adapters. rewrite Hctx. simpl.
  by rewrite (resolve_partial_value_classified (λ _ _ _ _, Ok []) ctx args
                all_args incomplete incomplete' k Hsplit Hk).
Qed.

(** X19: the words that the bash and zsh adapters complete.  For a cursor
    index that is not negative, the arguments are the words after the
    program name and before the cursor, and [incomplete] is the word under
    the cursor, or the empty string when the cursor is past the last
    word. *)
Theorem words_at_cursor_nonneg (comp_words comp_cword : string) (cword : Z) :
  environ !! "COMP_WORDS" = Some comp_words →
  environ !! "COMP_CWORD" = Some comp_cword →
  int comp_cword = Ok cword → (0 ≤ cword)%Z →
  words_at_cursor =
  Ok (take (Z.to_nat cword - 1) (drop 1 (split_arg_string comp_words)),
      default "" (split_arg_string comp_words !! Z.to_nat cword)) ∧
  ((Z.of_nat (length (split_arg_string comp_words)) ≤ cword)%Z →
   words_at_cursor = Ok (drop 1 (split_arg_string comp_words), "")).
Proof.
  intros Hwords Hcword Hint Hnonneg.
  assert (Hcursor : words_at_cursor =
    Ok (take (Z.to_nat cword - 1) (drop 1 (split_arg_string comp_words)),
        default "" (split_arg_string comp_words !! Z.to_nat cword))).
  { unfold_adapters. rewrite Hwords, Hcword, Hint.
    by rewrite py_slice_from_one, py_index_nonneg. }
  split; [done|]. intros Hpast. rewrite Hcursor.
  rewrite take_ge by (rewrite length_drop; lia).
  by rewrite lookup_ge_None_2 by lia.
Qed.

(** X20: when [do_complete] returns a list, the bash adapter prints one
    line [type,value] for each item and returns [True]; the zsh adapter
    prints two lines for each item, the value and then the help, or [_]
    when the help is missing or empty. *)
Theorem bash_and_zsh_output (fuel : nat) (self : ShellCompleteObject)
    (stdout args : list string) (incomplete : string)
    (completions : list completion_triple) :
  words_at_cursor = Ok (args, incomplete) →
  do_complete fuel (self_cli self) (self_prog_name self) args incomplete =
    Some (Ok completions) →
  BashComplete_complete fuel self stdout =
    Some (Ok true, stdout ++ (type_and_value <$> completions)) ∧
  (∃ lines,
     ZshComplete_complete fuel self stdout = Some (Ok true, stdout ++ lines) ∧
     length lines = 2 * length completions ∧
     ∀ i item, completions !! i = Some item →
       lines !! (2 * i) = Some (py_str item.1.2) ∧
       lines !! (2 * i + 1) =
         Some (match item.2 with
               | Some help => if String.eqb help "" then "_" else help
               | None => "_"
               end)).
Proof.
  intros Hcursor Hdo. split.
  - unfold_bash. by rewrite Hcursor, Hdo, <-bind_one_line.
  - exists (completions ≫= zsh_lines). split; [|split].
    + unfold_zsh.
      by rewrite Hcursor, Hdo.
    + clear. induction completions as [|item l IH]; [done|].
      rewrite bind_cons. unfold zsh_lines at 1.
      cbn [app length]. rewrite IH. lia.
    + clear. induction completions as [|item0 l IH]; intros i item Hi;
        [done|].
      rewrite bind_cons. unfold zsh_lines at 1. cbn [app].
      destruct i as [|i].
      * simplify_eq/=. split; [done|].
        by destruct item as [[ty v] [help|]]; simpl;
          [destruct (String.eqb help "")|].
      * simpl in Hi. destruct (IH i item Hi) as [Hvalue Hhelp].
        replace (2 * S i) with (S (S (2 * i))) by lia.
        replace (S (S (2 * i)) + 1) with (S (S (2 * i + 1))) by lia.
        done.
Qed.

(** X21: a [complete] method prints nothing before it fails: when it
    raises (a missing environment variable, a cursor index that is not a
    number, an exception of the completion itself) the output is as it
    was.  When it returns, the value is [True] and the earlier output is
    kept in front of the new lines. *)
Theorem complete_raises_silently (fuel : nat) (self : ShellCompleteObject)
    (stdout out : list string) (r : result bool) :
  BashComplete_complete fuel self stdout = Some (r, out) ∨
  ZshComplete_complete fuel self stdout = Some (r, out) ∨
  FishComplete_complete fuel self stdout = Some (r, out) →
  match r with
  | Raise _ => out = stdout
  | Ok b => b = true ∧ stdout `prefix_of` out
  end.
Proof.
  assert (Hecho : ∀ lines args incomplete,
    complete_and_echo make_context resolve_command object_shell_complete
      lines fuel self args incomplete stdout = Some (r, out) →
    match r with
    | Raise _ => out = stdout
    | Ok b => b = true ∧ stdout `prefix_of` out
    end).
  { intros lines args incomplete. unfold_echo.
    destruct (do_complete _ _ _ _ _) as [[completions|e]|];
      intros; simplify_eq/=; [|done].
    split; [done|]. by apply prefix_app_r. }
  intros [Hcomplete|[Hcomplete|Hcomplete]]; revert Hcomplete;
    unfold_complete.
  - destruct words_at_cursor as [[args incomplete]|e];
      [by apply Hecho|by intros; simplify_eq].
  - destruct words_at_cursor as [[args incomplete]|e];
      [by apply Hecho|by intros; simplify_eq].
  - destruct (environ !! "COMP_WORDS") as [comp_words|];
      [|by intros; simplify_eq].
    destruct (environ !! "COMP_CWORD") as [incomplete|];
      [|by intros; simplify_eq].
    by apply Hecho.
Qed.

(** X22: the words that the fish adapter completes.  When the line after
    the program name ends with the word under the cursor and that word is
    not empty, the word is taken off the arguments; when the word under the
    cursor is empty or the line ends with another word, the arguments are
    all the words after the program name.  Each item is printed on one
    line. *)
Theorem fish_drops_repeated_word (fuel : nat) (self : ShellCompleteObject)
    (stdout : list string) (comp_words incomplete : string) :
  environ !! "COMP_WORDS" = Some comp_words →
  environ !! "COMP_CWORD" = Some incomplete →
  ∀ args completions,
    (incomplete ≠ "" ∧
     drop 1 (split_arg_string comp_words) = args ++ [incomplete]) ∨
    ((incomplete = "" ∨
      last (drop 1 (split_arg_string comp_words)) ≠ Some incomplete) ∧
     drop 1 (split_arg_string comp_words) = args) →
    do_complete fuel (self_cli self) (self_prog_name self) args incomplete =
      Some (Ok completions) →
    FishComplete_complete fuel self stdout =
      Some (Ok true, stdout ++ (fish_line <$> completions)).
Proof.
  intros Hwords Hcword args completions Hargs Hdo.
  rewrite <-bind_one_line.
  unfold_fish.
  rewrite Hwords, Hcword.
  destruct Hargs as [[Hne Hlast]|[Hkeep Hall]].
  - rewrite Hlast.
    replace (negb (String.eqb incomplete "")) with true
      by (symmetry; apply negb_true_iff; by apply String.eqb_neq).
    rewrite bool_decide_eq_true_2 by (by destruct args).
    rewrite bool_decide_eq_true_2 by (by rewrite last_snoc).
    simpl. rewrite length_app. simpl.
    replace (length args + 1 - 1) with (length args) by lia.
    rewrite take_app_length. by rewrite Hdo.
  - rewrite Hall in *.
    destruct Hkeep as [->|Hother].
    + simpl. by rewrite Hdo.
    + rewrite (bool_decide_eq_false_2 (last args = Some incomplete)) by done.
      rewrite andb_false_r. by rewrite Hdo.
Qed.

End AdapterFacts.

(** * The further properties on the examples *)

Lemma is_incomplete_option_single_value_witness :
  is_incomplete_option ["--opt1"; "="] (Option opt1_attrs plain_option) = true ↔
  ∃ t, last (filter (λ arg, arg ≠ WORDBREAK) ["--opt1"; "="]) = Some t ∧
       start_of_option t = true ∧ t ∈ opts opt1_attrs.
Proof.
  apply (is_incomplete_option_single_value opt1_attrs plain_option
           ["--opt1"; "="]); reflexivity.
Defined.

Lemma is_incomplete_option_window_only_witness :
  is_incomplete_option (["--pos"] ++ ["a"; "="; "b"])
    (Option pos_attrs plain_option) =
  is_incomplete_option ["a"; "="; "b"] (Option pos_attrs plain_option).
Proof.
  apply (proj2 (is_incomplete_option_window_only
                  (Option pos_attrs plain_option) ["--pos"] ["a"; "="; "b"])).
  vm_compute. discriminate.
Defined.

Lemma is_incomplete_option_values_supplied_witness :
  is_incomplete_option (["--pos"] ++ ["a"; "b"])
    (Option pos_attrs plain_option) = false.
Proof.
  apply (is_incomplete_option_values_supplied (Option pos_attrs plain_option)
           ["--pos"] ["a"; "b"]).
  - repeat constructor; discriminate.
  - vm_compute. discriminate.
Defined.

Lemma is_incomplete_option_values_missing_witness :
  is_incomplete_option (["--verbose"] ++ "--pos" :: ["pos1"])
    (Option pos_attrs plain_option) = true.
Proof.
  apply (is_incomplete_option_values_missing pos_attrs plain_option
           ["--verbose"] ["pos1"] "--pos").
  - reflexivity.
  - apply list_elem_of_singleton. reflexivity.
  - reflexivity.
  - repeat constructor; discriminate.
  - vm_compute. reflexivity.
  - vm_compute. constructor.
Defined.

(** An argument that is not exposed makes the completion raise. *)
Lemma get_choices_missing_value_witness :
  get_choices example_callbacks unexposed_make_context example_resolve_command
    3 unexposed_cli "cli" [] "" = Some (Raise (KeyError "arg")).
Proof.
  apply (get_choices_missing_value example_callbacks unexposed_make_context
           example_resolve_command 3 unexposed_cli "cli" [] [] "" ""
           (unexposed_make_context unexposed_cli "cli" [] None false)
           [] []
           {| name := "arg"; opts := ["arg"]; secondary_opts := [];
              nargs := 1; type := OtherType; autocompletion := None |}).
  - reflexivity.
  - reflexivity.
  - intros [_ [=]].
  - repeat constructor.
  - reflexivity.
  - constructor.
  - reflexivity.
Defined.

(** On the group with the variadic argument, after [cli one] the value
    recorded for the argument is the tuple [('one',)], so the argument is
    open through its [nargs = -1] alone; the subcommands [asub] and [bsub]
    match the empty [incomplete] and neither is offered. *)
Lemma variadic_argument_before_subcommands_witness :
  params variadic_ctx !! "files" = Some (PyTuple [VStr "one"]) ∧
  name_and_help <$> visible_children variadic_cli "" =
    [("asub", ""); ("bsub", "")] ∧
  get_choices example_callbacks variadic_make_context example_resolve_command
    3 variadic_cli "cli" ["one"] "" = Some (Ok []).
Proof.
  split; [reflexivity|]. split; [reflexivity|].
  destruct (variadic_argument_before_subcommands example_callbacks
              variadic_make_context example_resolve_command 3 variadic_cli
              "cli" ["one"] ["one"] "" "" variadic_ctx files_argument)
    as [(a & Ha & Hchoices)|(key & Hraises)].
  - reflexivity.
  - reflexivity.
  - intros [_ [=]].
  - repeat constructor.
  - apply list_elem_of_singleton. reflexivity.
  - reflexivity.
  - exists (PyTuple [VStr "one"]). reflexivity.
  - apply list_elem_of_singleton in Ha. injection Ha as ->.
    rewrite Hchoices. reflexivity.
  - vm_compute in Hraises. discriminate Hraises.
Defined.

Lemma candidates_start_with_incomplete_witness :
  ∃ candidates,
    example_get_choices 3 chain_cli "cli" ["asub"] "b" = Some (Ok candidates) ∧
    Forall (λ c, startswith (py_str c.1) "b" = true) candidates.
Proof.
  apply (candidates_start_with_incomplete example_callbacks
           example_make_context example_resolve_command 3 chain_cli "cli"
           ["asub"] ["asub"] "b" "b" asub_ctx SubcommandNames).
  - reflexivity.
  - reflexivity.
  - apply classifies_subcommand_names; [by intros [_ [=]]|constructor..].
  - split; [exact asub_ctx_well_listed|exact asub_ctx_named_as_listed].
Defined.

Lemma get_choices_unresolved_command_witness :
  example_get_choices 3 ghost_cli "cli" [] "g" =
  Some (Raise (AttributeError "hidden")).
Proof.
  apply (get_choices_unresolved_command example_callbacks example_make_context
           example_resolve_command 3 ghost_cli "cli" [] [] "g" "g"
           (example_make_context ghost_cli "cli" [] None false)
           ghost_group "ghost").
  - reflexivity.
  - reflexivity.
  - apply classifies_subcommand_names; [by intros [_ [=]]|constructor..].
  - reflexivity.
  - apply list_elem_of_singleton. reflexivity.
  - reflexivity.
  - reflexivity.
Defined.

Lemma get_choices_plain_command_witness :
  example_get_choices 3 foo_cli "cli" [] "" = Some (Ok []).
Proof.
  apply (get_choices_plain_command example_callbacks example_make_context
           example_resolve_command 3 foo_cli "cli" [] [] "" ""
           (example_make_context foo_cli "cli" [] None false)).
  - reflexivity.
  - reflexivity.
  - apply classifies_subcommand_names; [by intros [_ [=]]|repeat constructor..].
  - reflexivity.
  - constructor.
Defined.

(** The stand-in parser consumes tokens and hangs each context below its
    parent. *)
Lemma example_resolve_command_consumes (cmd : Command) (ctx : Ctx)
    (args : list string) :
  args ≠ [] → length (example_resolve_command cmd ctx args).2 < length args.
Proof. destruct args as [|arg args]; [done|]. simpl. lia. Qed.

Lemma example_make_context_leftover (cmd : Command) (info_name : string)
    (args : list string) (parent_ctx : option Ctx) (chained : bool) :
  length (protected_args
            (example_make_context cmd info_name args parent_ctx chained) ++
          ctx_args
            (example_make_context cmd info_name args parent_ctx chained))
  ≤ length args.
Proof.
  unfold example_make_context. destruct (multi cmd) as [m|]; [|done].
  destruct (chain m); simpl.
  - by rewrite app_nil_r.
  - by rewrite take_drop.
Qed.

Lemma example_make_context_parent (cmd : Command) (info_name : string)
    (args : list string) (parent_ctx : option Ctx) (chained : bool) :
  parent (example_make_context cmd info_name args parent_ctx chained) =
  parent_ctx.
Proof.
  unfold example_make_context. destruct (multi cmd) as [m|]; [|done].
  by destruct (chain m).
Qed.

Lemma resolve_ctx_terminates_witness :
  ∃ ctx,
    example_resolve_ctx 3 chain_cli "cli" ["asub"] = Some ctx ∧
    (∀ fuel', 3 ≤ fuel' →
       example_resolve_ctx fuel' chain_cli "cli" ["asub"] = Some ctx) ∧
    (∀ fuel', 3 ≤ fuel' →
       example_get_choices fuel' chain_cli "cli" ["asub"] "" =
       Some (get_choices_from example_callbacks ctx ["asub"] "")).
Proof.
  apply (resolve_ctx_terminates example_callbacks example_make_context
           example_resolve_command example_resolve_command_consumes
           example_make_context_leftover 3 chain_cli "cli" ["asub"] "").
  simpl. lia.
Defined.

Lemma resolve_ctx_chain_witness :
  last (asub_ctx :: ancestors asub_ctx) =
    Some (example_make_context chain_cli "cli" ["asub"] None false) ∧
  Forall (λ a, is_Some (multi (command a))) (ancestors asub_ctx).
Proof.
  apply (resolve_ctx_chain example_make_context example_resolve_command
           example_make_context_parent 3 chain_cli "cli" ["asub"] asub_ctx).
  reflexivity.
Defined.

Lemma completion_function_name_witness :
  remove_invalid_ident_chars (replace_dash "foo-bar") =
  remove_invalid_ident_chars (replace_dash "foo") +:+ "_" +:+
  remove_invalid_ident_chars (replace_dash "bar").
Proof.
  apply (proj2 (proj2 (completion_function_name "foo-bar")) "foo" "bar").
  reflexivity.
Defined.

Lemma shell_complete_old_bash_witness :
  shell_complete example_format example_strip old_bash_shells foo_cli "cli"
    "_CLI_COMPLETE" "source_bash" [] =
  (Raise (Exception
     "Shell completion is not supported for bash versions older than 4.4"),
   []).
Proof.
  apply (proj1 (shell_complete_old_bash "bash script" "zsh script"
                  "fish script" true example_format example_strip
                  (λ _ stdout, (Ok true, stdout ++ ["bash candidates"]))
                  (λ _ stdout, (Ok true, stdout ++ ["zsh candidates"]))
                  (λ _ stdout, (Ok true, stdout ++ ["fish candidates"]))
                  foo_cli "cli" "_CLI_COMPLETE" [] "source_bash" eq_refl)).
  right. reflexivity.
Defined.

Lemma registered_class_is_used_witness :
  get_completion_source (<["bash" := MyComplete]> example_shells) "bash" =
    MyComplete ∧
  (∀ shell, shell ≠ "bash" →
     get_completion_source (<["bash" := MyComplete]> example_shells) shell =
     get_completion_source example_shells shell) ∧
  shell_complete example_format example_strip
    (<["bash" := MyComplete]> example_shells) foo_cli "cli" "_CLI_COMPLETE"
    ("complete_" +:+ "bash") [] =
  complete MyComplete
    {| self_prog_name := "cli"; self_complete_var := "_CLI_COMPLETE";
       self_cli := foo_cli |} [].
Proof.
  apply (registered_class_is_used example_format example_strip "bash"
           MyComplete example_shells (<["bash" := MyComplete]> example_shells)
           foo_cli "cli" "_CLI_COMPLETE" []).
  reflexivity.
Defined.

Lemma shell_complete_unknown_shell_witness :
  get_completion_source example_shells "tcsh" = ShellComplete ∧
  shell_complete example_format example_strip example_shells foo_cli "cli"
    "_CLI_COMPLETE" ("source_" +:+ "tcsh") [] =
    (Raise (NotImplementedError "source function needs to be overridden"),
     []) ∧
  shell_complete example_format example_strip example_shells foo_cli "cli"
    "_CLI_COMPLETE" ("complete_" +:+ "tcsh") [] =
    (Raise (NotImplementedError "complete function needs to be overridden"),
     []).
Proof.
  apply (shell_complete_unknown_shell example_format example_strip
           example_shells foo_cli "cli" "_CLI_COMPLETE" "tcsh" []).
  reflexivity.
Defined.

Local Abbreviation example_do_complete :=
  (do_complete example_make_context example_resolve_command
     example_object_shell_complete).

Lemma do_complete_dispatch_witness :
  example_do_complete 3 chain_cli "cli" ["asub"] "b" =
  Some (example_object_shell_complete (OfCommand (command asub_ctx)) asub_ctx
          ["asub"] "b").
Proof.
  apply (do_complete_dispatch example_make_context example_resolve_command
           example_object_shell_complete 3 chain_cli "cli" ["asub"] ["asub"]
           "b" "b" asub_ctx SubcommandNames).
  - reflexivity.
  - reflexivity.
  - apply classifies_subcommand_names; [by intros [_ [=]]|constructor..].
Defined.

Lemma words_at_cursor_nonneg_witness :
  words_at_cursor example_environ example_split_arg_string example_int =
  Ok (["asub"], "b").
Proof.
  apply (proj1 (words_at_cursor_nonneg example_environ
                  example_split_arg_string example_int "cli asub b" "2" 2
                  eq_refl eq_refl eq_refl ltac:(lia))).
Defined.

Lemma bash_and_zsh_output_witness :
  BashComplete_complete example_make_context example_resolve_command
    example_object_shell_complete example_environ example_split_arg_string
    example_int 3
    {| self_prog_name := "cli"; self_complete_var := "_CLI_COMPLETE";
       self_cli := chain_cli |} [] =
  Some (Ok true, ["none,bsub"]).
Proof.
  apply (proj1 (bash_and_zsh_output example_make_context
                  example_resolve_command example_object_shell_complete
                  example_environ example_split_arg_string example_int 3
                  {| self_prog_name := "cli";
                     self_complete_var := "_CLI_COMPLETE";
                     self_cli := chain_cli |} [] ["asub"] "b"
                  [("none", VStr "bsub", Some "bsub help")]
                  eq_refl eq_refl)).
Defined.

Lemma complete_raises_silently_witness :
  BashComplete_complete example_make_context example_resolve_command
    example_object_shell_complete example_environ example_split_arg_string
    example_int 3
    {| self_prog_name := "cli"; self_complete_var := "_CLI_COMPLETE";
       self_cli := chain_cli |} ["earlier"] =
    Some (Ok true, ["earlier"; "none,bsub"]) ∧
  true = true ∧ ["earlier"] `prefix_of` ["earlier"; "none,bsub"].
Proof.
  split; [reflexivity|].
  apply (complete_raises_silently example_make_context example_resolve_command
           example_object_shell_complete example_environ
           example_split_arg_string example_int 3
           {| self_prog_name := "cli"; self_complete_var := "_CLI_COMPLETE";
              self_cli := chain_cli |} ["earlier"] ["earlier"; "none,bsub"]
           (Ok true)).
  left. reflexivity.
Defined.

Lemma fish_drops_repeated_word_witness :
  FishComplete_complete example_make_context example_resolve_command
    example_object_shell_complete example_fish_environ
    example_split_arg_string 3
    {| self_prog_name := "cli"; self_complete_var := "_CLI_COMPLETE";
       self_cli := chain_cli |} [] =
  Some (Ok true, ["none,bsub" +:+ TAB +:+ "bsub help"]).
Proof.
  apply (fish_drops_repeated_word example_make_context example_resolve_command
           example_object_shell_complete example_fish_environ
           example_split_arg_string 3
           {| self_prog_name := "cli"; self_complete_var := "_CLI_COMPLETE";
              self_cli := chain_cli |} [] "cli asub b" "b" eq_refl eq_refl
           ["asub"] [("none", VStr "bsub", Some "bsub help")]).
  - left. split; [discriminate|reflexivity].
  - reflexivity.
Defined.
